(** * amazon-qldb-driver-nodejs: the session pool of [QldbDriver] and the
      paginated [ResultStream], embedded from [src/QldbDriver.ts] and
      [src/ResultStream.ts].

    The driver part threads the driver object explicitly through every
    method; the answers of the remote service (session creation, the run of a
    transaction on a session) are given by an environment script, one entry
    per iteration of the outer loop of [executeLambda].  The stream part cuts
    the asynchronous [_pushPageValues] at its single [await], so that read
    requests and page deliveries are events of a small machine. *)

From Stdlib Require Import ZArith List Bool String Lia.
Import ListNotations.
Open Scope Z_scope.

(* ===================================================================== *)
(** ** Part I: QldbDriver *)
(* ===================================================================== *)

(** JavaScript numbers as the driver meets them: integer counts, and
    [Infinity], which is the default [maxSockets] of Node's [globalAgent]. *)
Inductive number : Type :=
| Num (z : Z)
| Infinity.

Definition num_lt (a b : number) : bool :=
  match a, b with
  | Num x, Num y => x <? y
  | Num _, Infinity => true
  | Infinity, _ => false
  end.

Definition num_gt (a b : number) : bool := num_lt b a.

Definition num_eqb (a b : number) : bool :=
  match a, b with
  | Num x, Num y => x =? y
  | Infinity, Infinity => true
  | _, _ => false
  end.

(** [n++] and [n--]. *)
Definition num_succ (a : number) : number :=
  match a with Num x => Num (x + 1) | Infinity => Infinity end.

Definition num_pred (a : number) : number :=
  match a with Num x => Num (x - 1) | Infinity => Infinity end.

(** The two messages the constructor raises a [RangeError] with. *)
Inductive RangeMessage : Type :=
| PoolLimitNegative
| PoolLimitExceedsClient (given limit : number).

(** The errors that travel through the driver.  [SessionPoolEmptyError]
    carries the value of [this._timeoutMillis] it was built with, which is
    [None] when that field is [undefined]. *)
Inductive Error : Type :=
| RangeError (msg : RangeMessage)
| DriverClosedError
| SessionPoolEmptyError (timeout : option number)
| StartTransactionError
| InvalidSessionException
| OtherError (name : string).

(** [err instanceof StartTransactionError]. *)
Definition isStartTransactionError (e : Error) : bool :=
  match e with StartTransactionError => true | _ => false end.

(** Modelled from the spec: [isInvalidSessionException] of [errors/Errors]
    is not among the sources; it recognises the invalid-session condition. *)
Definition isInvalidSessionException (e : Error) : bool :=
  match e with InvalidSessionException => true | _ => false end.

(** A session object: an identity, the open flag that [isSessionOpen]
    reads, and whether [endSession] was invoked on it. *)
Record QldbSession : Type := mkSession {
  sessionId : nat;
  isSessionOpen : bool;
  transportEnded : bool
}.

(** Modelled from the spec: [QldbSession.endSession] is not among the
    sources; it ends the underlying transport handle of the session. *)
Definition endSession (s : QldbSession) : QldbSession :=
  mkSession (sessionId s) (isSessionOpen s) true.

(** The state a session is left in by a run of [session.executeLambda]:
    only the open flag may have changed. *)
Definition afterRun (staysOpen : bool) (s : QldbSession) : QldbSession :=
  mkSession (sessionId s) staysOpen (transportEnded s).

(** The counting semaphore of [semaphore-async-await], of which the driver
    uses [tryAcquire] and [release] only. *)
Record Semaphore : Type := mkSemaphore { permits : number }.

Definition tryAcquire (sem : Semaphore) : bool * Semaphore :=
  if num_gt (permits sem) (Num 0)
  then (true, mkSemaphore (num_pred (permits sem)))
  else (false, sem).

Definition release (sem : Semaphore) : Semaphore :=
  mkSemaphore (num_succ (permits sem)).

(** Retry policies are passed through untouched; only their identity
    matters to the driver. *)
Inductive RetryPolicy : Type :=
| defaultRetryPolicy
| customRetryPolicy (id : nat).

Record Agent : Type := mkAgent { maxSockets : number }.
Record HttpOptions : Type := mkHttpOptions { agent : option Agent }.
Record ClientConfiguration : Type := mkClientConfiguration {
  httpOptions : option HttpOptions;
  customUserAgent : option string;
  maxRetries : option Z
}.

Record QldbDriver : Type := mkDriver {
  _maxConcurrentTransactions : number;
  _timeoutMillis : option number;
  _availablePermits : number;
  _sessionPool : list QldbSession;
  _semaphore : Semaphore;
  _qldbClient : ClientConfiguration;
  _ledgerName : string;
  _isClosed : bool;
  _retryPolicy : RetryPolicy
}.

Definition set_availablePermits (n : number) (d : QldbDriver) : QldbDriver :=
  mkDriver (_maxConcurrentTransactions d) (_timeoutMillis d) n (_sessionPool d)
           (_semaphore d) (_qldbClient d) (_ledgerName d) (_isClosed d)
           (_retryPolicy d).

Definition set_sessionPool (p : list QldbSession) (d : QldbDriver)
    : QldbDriver :=
  mkDriver (_maxConcurrentTransactions d) (_timeoutMillis d)
           (_availablePermits d) p (_semaphore d) (_qldbClient d)
           (_ledgerName d) (_isClosed d) (_retryPolicy d).

Definition set_semaphore (s : Semaphore) (d : QldbDriver) : QldbDriver :=
  mkDriver (_maxConcurrentTransactions d) (_timeoutMillis d)
           (_availablePermits d) (_sessionPool d) s (_qldbClient d)
           (_ledgerName d) (_isClosed d) (_retryPolicy d).

Definition set_isClosed (b : bool) (d : QldbDriver) : QldbDriver :=
  mkDriver (_maxConcurrentTransactions d) (_timeoutMillis d)
           (_availablePermits d) (_sessionPool d) (_semaphore d)
           (_qldbClient d) (_ledgerName d) b (_retryPolicy d).

(** [Array.prototype.push] and [Array.prototype.pop]: both work at the end
    of the array; [pop] of an empty array gives [undefined]. *)
Definition array_push {A : Type} (l : list A) (x : A) : list A := l ++ [x].

Definition array_pop {A : Type} (l : list A) : option A * list A :=
  match rev l with
  | [] => (None, [])
  | x :: r => (Some x, rev r)
  end.

(** Lines 98-103: the [maxSockets] of the configured agent, else of
    [globalAgent]. *)
Definition clientMaxSockets (qldbClientOptions : ClientConfiguration)
    (globalAgent : Agent) : number :=
  match httpOptions qldbClientOptions with
  | Some ho =>
    match agent ho with
    | Some a => maxSockets a
    | None => maxSockets globalAgent
    end
  | None => maxSockets globalAgent
  end.

(** Lines 105-109: the pool limit the driver settles on. *)
Definition effectiveLimit (maxConcurrentTransactions maxSockets : number)
    : number :=
  if num_eqb (Num 0) maxConcurrentTransactions
  then maxSockets
  else maxConcurrentTransactions.

(** The constructor.  [version] stands for the string read from
    [package.json]; [globalAgent] for the one of Node's [http] module.
    The field [_timeoutMillis] is declared by the class and never assigned,
    so it is [undefined] in every driver the constructor builds. *)
Definition constructor (version : string) (globalAgent : Agent)
    (ledgerName : string) (qldbClientOptions : ClientConfiguration)
    (maxConcurrentTransactions : number) (retryPolicy : RetryPolicy)
    : Error + QldbDriver :=
  let qldbClientOptions :=
    mkClientConfiguration (httpOptions qldbClientOptions)
      (Some ("QLDB Driver for Node.js v" ++ version)%string) (Some 0) in
  if num_lt maxConcurrentTransactions (Num 0)
  then inl (RangeError PoolLimitNegative)
  else
    let maxSockets := clientMaxSockets qldbClientOptions globalAgent in
    let limit := effectiveLimit maxConcurrentTransactions maxSockets in
    if num_gt limit maxSockets
    then inl (RangeError (PoolLimitExceedsClient limit maxSockets))
    else inr (mkDriver limit None limit [] (mkSemaphore limit)
                       qldbClientOptions ledgerName false retryPolicy).

(** [_throwIfClosed]: [Some] error when it throws. *)
Definition _throwIfClosed (d : QldbDriver) : option Error :=
  if _isClosed d then Some DriverClosedError else None.

(** [_createSession]; [created] is what [Communicator.create] answers. *)
Definition _createSession (created : Error + QldbSession) (d : QldbDriver)
    : Error + QldbSession :=
  match _throwIfClosed d with
  | Some e => inl e
  | None => created
  end.

Definition getSession (created : Error + QldbSession) (d : QldbDriver)
    : (Error + QldbSession) * QldbDriver :=
  match _throwIfClosed d with
  | Some e => (inl e, d)
  | None =>
    let (isPermitAcquired, sem) := tryAcquire (_semaphore d) in
    if isPermitAcquired then
      let d := set_semaphore sem d in
      let d := set_availablePermits (num_pred (_availablePermits d)) d in
      let (session, pool) := array_pop (_sessionPool d) in
      let d := set_sessionPool pool d in
      match session with
      | Some s => (inr s, d)
      | None =>
        match _createSession created d with
        | inr s => (inr s, d)
        | inl e =>
          let d := set_semaphore (release (_semaphore d)) d in
          let d := set_availablePermits (num_succ (_availablePermits d)) d in
          (inl e, d)
        end
      end
    else (inl (SessionPoolEmptyError (_timeoutMillis d)), d)
  end.

Definition _returnSessionToPool (session : QldbSession) (d : QldbDriver)
    : QldbDriver :=
  let d :=
    if isSessionOpen session
    then set_sessionPool (array_push (_sessionPool d) session) d
    else d in
  let d := set_semaphore (release (_semaphore d)) d in
  set_availablePermits (num_succ (_availablePermits d)) d.

Definition close (d : QldbDriver) : QldbDriver :=
  set_isClosed true (set_sessionPool (map endSession (_sessionPool d)) d).

(** What other tasks may do to the driver while one call is suspended in
    [session.executeLambda].  (The creation of a session is taken as one
    step.) *)
Inductive Op : Type :=
| OpGetSession (created : Error + QldbSession)
| OpReturnSession (session : QldbSession)
| OpClose.

(** One operation; the session it hands out, if any, is reported. *)
Definition run_op (o : Op) (d : QldbDriver) : option QldbSession * QldbDriver :=
  match o with
  | OpGetSession created =>
    match getSession created d with
    | (inr s, d') => (Some s, d')
    | (inl _, d') => (None, d')
    end
  | OpReturnSession s => (None, _returnSessionToPool s d)
  | OpClose => (None, close d)
  end.

(** A sequence of operations, with the sessions handed out on the way. *)
Fixpoint run_ops (ops : list Op) (d : QldbDriver)
    : list QldbSession * QldbDriver :=
  match ops with
  | [] => ([], d)
  | o :: rest =>
    let (h, d1) := run_op o d in
    let (hs, d2) := run_ops rest d1 in
    (match h with Some s => s :: hs | None => hs end, d2)
  end.

Definition Result : Type := string.

(** What the environment answers during one iteration of the outer loop of
    [executeLambda]: the outcome of [Communicator.create] (asked only when
    the pool is empty), what other tasks do while the transaction runs, the
    outcome of [session.executeLambda] under the retry policy it is given,
    and whether the session is still open afterwards. *)
Record Attempt : Type := mkAttempt {
  created : Error + QldbSession;
  meanwhile : list Op;
  outcome : RetryPolicy -> Error + Result;
  staysOpen : bool
}.

(** What the loop does with sessions, in order. *)
Inductive SessionEvent : Type :=
| Borrowed (s : QldbSession)
| Released (s : QldbSession).

(** The [finally] block of the loop body. *)
Definition finally_release (session : option QldbSession)
    (st : QldbDriver * list SessionEvent) : QldbDriver * list SessionEvent :=
  match session with
  | Some s => (_returnSessionToPool s (fst st), snd st ++ [Released s])
  | None => st
  end.

(** The [while (true)] loop of [executeLambda].  [session] is the variable
    declared before the loop: an iteration assigns it only when [getSession]
    returns, so it keeps its value from one iteration to the next.  The
    transaction execution context made before the loop goes to
    [session.executeLambda] and is part of what the environment answers.
    [None] as a result means that the script ran out while the loop was
    still going. *)
Fixpoint executeLambda_loop (script : list Attempt) (retryPolicy : RetryPolicy)
    (session : option QldbSession) (st : QldbDriver * list SessionEvent)
    : option (Error + Result) * (QldbDriver * list SessionEvent) :=
  match script with
  | [] => (None, st)
  | a :: rest =>
    (* the [try] block: how it ends, and [session] and the driver then *)
    let '(tried, session, st) :=
      match getSession (created a) (fst st) with
      | (inr s, d1) =>
        (outcome a retryPolicy,
         Some (afterRun (staysOpen a) s),
         (snd (run_ops (meanwhile a) d1), snd st ++ [Borrowed s]))
      | (inl err, d1) => (inl err, session, (d1, snd st))
      end in
    (* [return] or the [catch] block, each through the [finally] block *)
    match tried with
    | inr v => (Some (inr v), finally_release session st)
    | inl err =>
      if isStartTransactionError err || isInvalidSessionException err
      then executeLambda_loop rest retryPolicy session
             (finally_release session st)
      else (Some (inl err), finally_release session st)
    end
  end.

Definition executeLambda (script : list Attempt)
    (retryPolicy : option RetryPolicy) (d : QldbDriver)
    : option (Error + Result) * (QldbDriver * list SessionEvent) :=
  let retryPolicy :=
    match retryPolicy with None => _retryPolicy d | Some p => p end in
  executeLambda_loop script retryPolicy None (d, []).

(** [getTableNames].  The statement, the reading of its result and the
    mapping of the rows to names all run inside the transaction function,
    that is inside [session.executeLambda], and are part of what the script
    answers; the call itself is [executeLambda] with no retry policy of the
    caller's. *)
Definition getTableNames (script : list Attempt) (d : QldbDriver)
    : option (Error + Result) * (QldbDriver * list SessionEvent) :=
  executeLambda script None d.

(* ===================================================================== *)
(** ** Vocabulary of the driver's statements, and concrete inputs *)
(* ===================================================================== *)

(** An operation that leaves a released, closed session [s] alone: a newly
    created session is not [s], and [s] is returned again only with its open
    flag still false. *)
Definition keeps_closed (s : QldbSession) (o : Op) : Prop :=
  match o with
  | OpGetSession (inr c) => sessionId c <> sessionId s
  | OpGetSession (inl _) => True
  | OpReturnSession x => sessionId x = sessionId s -> isSessionOpen x = false
  | OpClose => True
  end.

(** An attempt that gets a new session when it needs one, is not disturbed,
    and fails with a session-validity error. *)
Definition session_failure (policy : RetryPolicy) (a : Attempt) : Prop :=
  (exists s, created a = inr s) /\ meanwhile a = [] /\
  exists e, outcome a policy = inl e /\
            isStartTransactionError e || isInvalidSessionException e = true.

(** How often a session (by identity) occurs in a log as borrowed, and as
    released. *)
Definition borrows (id : nat) (log : list SessionEvent) : nat :=
  List.length
    (filter (fun ev => match ev with
                       | Borrowed s => Nat.eqb (sessionId s) id
                       | Released _ => false
                       end) log).

Definition releases (id : nat) (log : list SessionEvent) : nat :=
  List.length
    (filter (fun ev => match ev with
                       | Released s => Nat.eqb (sessionId s) id
                       | Borrowed _ => false
                       end) log).

(** A log in which every borrow is followed at once by the release of the
    session borrowed. *)
Inductive paired : list SessionEvent -> Prop :=
| paired_nil : paired []
| paired_cons : forall s s' l,
    sessionId s = sessionId s' -> paired l ->
    paired (Borrowed s :: Released s' :: l).

(** An attempt that ends the call: it commits, or fails with an error that
    is not of the session-validity class. *)
Definition final_attempt (policy : RetryPolicy) (a : Attempt) : Prop :=
  (exists s, created a = inr s) /\ meanwhile a = [] /\
  match outcome a policy with
  | inr _ => True
  | inl e => isStartTransactionError e || isInvalidSessionException e = false
  end.

Definition session0 : QldbSession := mkSession 0 true false.
Definition session1 : QldbSession := mkSession 1 true false.

Definition plainOptions : ClientConfiguration :=
  mkClientConfiguration None None None.

Definition agentOptions (n : number) : ClientConfiguration :=
  mkClientConfiguration (Some (mkHttpOptions (Some (mkAgent n)))) None None.

(** The driver [new QldbDriver ("ledger", {}, 1)] under an agent of one
    socket. *)
Definition driver1 : QldbDriver :=
  mkDriver (Num 1) None (Num 1) [] (mkSemaphore (Num 1))
    (mkClientConfiguration None (Some "QLDB Driver for Node.js v2.0"%string)
       (Some 0))
    "ledger" false defaultRetryPolicy.

(** A first attempt whose session turns out invalid and closed, then a
    second one for which no session can be created. *)
Definition invalid_then_no_session : list Attempt :=
  [ mkAttempt (inr session0) [] (fun _ => inl InvalidSessionException) false;
    mkAttempt (inl (OtherError "NetworkingError")) []
      (fun _ => inr "unused"%string) true ].

(** A first attempt that fails to start its transaction on a session that
    stays open, then a second one that commits; no session could be created
    for the second. *)
Definition start_failure_then_success : list Attempt :=
  [ mkAttempt (inr session0) [] (fun _ => inl StartTransactionError) true;
    mkAttempt (inl (OtherError "NetworkingError")) []
      (fun _ => inr "committed"%string) true ].

(** The two permit counts of the driver agree. *)
Definition lockstep (d : QldbDriver) : Prop :=
  _availablePermits d = permits (_semaphore d).

(** How many sessions a sequence of operations gives back. *)
Definition returned (ops : list Op) : nat :=
  List.length
    (filter (fun o => match o with OpReturnSession _ => true | _ => false end)
            ops).

(** One [getSession] after the other, each able to create its session. *)
Definition acquisitions (sessions : list QldbSession) : list Op :=
  map (fun s => OpGetSession (inr s)) sessions.

(** Whether an acquisition ended in [SessionPoolEmptyError]. *)
Definition poolExhausted (r : Error + QldbSession) : bool :=
  match r with
  | inl (SessionPoolEmptyError _) => true
  | _ => false
  end.

(* ===================================================================== *)
(** ** Part II: ResultStream *)
(* ===================================================================== *)

(** The shapes of the service's answers ([aws-sdk/clients/qldbsession]). *)
Record ValueHolder : Type := mkValueHolder { IonBinary : string }.

Record Page : Type := mkPage {
  Values : list ValueHolder;
  NextPageToken : option string
}.

Record sdkIOUsage : Type := mkIOUsage { ReadIOs : Z }.

Record sdkTimingInformation : Type := mkTimingInformation {
  ProcessingTimeMilliseconds : Z
}.

Record ExecuteStatementResult : Type := mkExecuteStatementResult {
  FirstPage : Page;
  ConsumedIOs : option sdkIOUsage;
  TimingInformation : option sdkTimingInformation
}.

Record FetchPageResult : Type := mkFetchPageResult {
  fetchedPage : Page;
  fetchedConsumedIOs : option sdkIOUsage;
  fetchedTimingInformation : option sdkTimingInformation
}.

(** The token as a condition sees it: JavaScript takes [undefined], [null]
    and the empty string for false. *)
Definition nextToken (p : Page) : option string :=
  match NextPageToken p with
  | Some t => if (t =? "")%string then None else Some t
  | None => None
  end.

(** Modelled from the spec: [IOUsageImpl] and [TimingInformationImpl] of
    [stats/], and [Result._getIOUsage] and [Result._getTimingInformation],
    are not among the sources.  An accumulator is unset until a report
    arrives; it starts at the first reported value; a later report is added
    in, an omitted one adds nothing. *)
Record IOUsageImpl : Type := mkIOUsageImpl { getReadIOs : Z }.

Record TimingInformationImpl : Type := mkTimingInformationImpl {
  getProcessingTimeMilliseconds : Z
}.

(** Modelled from the spec: [Result._getIOUsage], not among the sources. *)
Definition _getIOUsage (c : option sdkIOUsage) : option IOUsageImpl :=
  match c with
  | Some c => Some (mkIOUsageImpl (ReadIOs c))
  | None => None
  end.

(** Modelled from the spec: [Result._getTimingInformation], not among the
    sources. *)
Definition _getTimingInformation (t : option sdkTimingInformation)
    : option TimingInformationImpl :=
  match t with
  | Some t => Some (mkTimingInformationImpl (ProcessingTimeMilliseconds t))
  | None => None
  end.

(** Modelled from the spec: [IOUsageImpl.accumulateIOUsage], not among the
    sources. *)
Definition accumulateIOUsage (c : option sdkIOUsage) (u : IOUsageImpl)
    : IOUsageImpl :=
  match c with
  | Some c => mkIOUsageImpl (getReadIOs u + ReadIOs c)
  | None => u
  end.

(** Modelled from the spec: [TimingInformationImpl.accumulateTimingInfo],
    not among the sources. *)
Definition accumulateTimingInfo (t : option sdkTimingInformation)
    (u : TimingInformationImpl) : TimingInformationImpl :=
  match t with
  | Some t =>
    mkTimingInformationImpl
      (getProcessingTimeMilliseconds u + ProcessingTimeMilliseconds t)
  | None => u
  end.

(** A call of [fetchPage]: the transaction id and the token it was given. *)
Definition FetchCall : Type := (string * string)%type.

Section Stream.

(** The decoded values, and the decoder [dom.load (Result._handleBlob _)]. *)
Variable Value : Type.
Variable dom_load : string -> Value.

(** What [push] answers to the stream: [push_returns n] is the answer to the
    call made when [n] chunks were pushed before it.  Any behaviour of the
    consumer and of the buffer of [Readable] is some such function. *)
Variable push_returns : nat -> bool.

(** The stream object.  [pushed] and [destroyed] are the state of the
    [Readable] it extends: the chunks handed to [push] so far, [None] being
    [null], and the error [destroy] was called with.  [fetchCalls] and
    [inFlight] are the communicator's side: every [fetchPage] call made, and
    those not answered yet. *)
Record ResultStream : Type := mkStream {
  _cachedPage : Page;
  _txnId : string;
  _shouldPushCachedPage : bool;
  _retrieveIndex : nat;
  _isPushingData : bool;
  _ioUsage : option IOUsageImpl;
  _timingInformation : option TimingInformationImpl;
  pushed : list (option Value);
  destroyed : option Error;
  fetchCalls : list FetchCall;
  inFlight : list FetchCall
}.

Definition set_cachedPage (p : Page) (s : ResultStream)
    : ResultStream :=
  let '(mkStream page txn should index pushing io timing chunks err calls
                 flying) := s in
  mkStream p txn should index pushing io timing chunks err calls flying.

Definition set_shouldPushCachedPage (b : bool) (s : ResultStream)
    : ResultStream :=
  let '(mkStream page txn should index pushing io timing chunks err calls
                 flying) := s in
  mkStream page txn b index pushing io timing chunks err calls flying.

Definition set_retrieveIndex (i : nat) (s : ResultStream)
    : ResultStream :=
  let '(mkStream page txn should index pushing io timing chunks err calls
                 flying) := s in
  mkStream page txn should i pushing io timing chunks err calls flying.

Definition set_isPushingData (b : bool) (s : ResultStream)
    : ResultStream :=
  let '(mkStream page txn should index pushing io timing chunks err calls
                 flying) := s in
  mkStream page txn should index b io timing chunks err calls flying.

Definition set_ioUsage (u : option IOUsageImpl) (s : ResultStream)
    : ResultStream :=
  let '(mkStream page txn should index pushing io timing chunks err calls
                 flying) := s in
  mkStream page txn should index pushing u timing chunks err calls flying.

Definition set_timingInformation (u : option TimingInformationImpl)
    (s : ResultStream) : ResultStream :=
  let '(mkStream page txn should index pushing io timing chunks err calls
                 flying) := s in
  mkStream page txn should index pushing io u chunks err calls flying.

Definition set_pushed (l : list (option Value)) (s : ResultStream)
    : ResultStream :=
  let '(mkStream page txn should index pushing io timing chunks err calls
                 flying) := s in
  mkStream page txn should index pushing io timing l err calls flying.

Definition set_destroyed (e : option Error) (s : ResultStream)
    : ResultStream :=
  let '(mkStream page txn should index pushing io timing chunks err calls
                 flying) := s in
  mkStream page txn should index pushing io timing chunks e calls flying.

Definition set_fetches (made out : list FetchCall) (s : ResultStream)
    : ResultStream :=
  let '(mkStream page txn should index pushing io timing chunks err calls
                 flying) := s in
  mkStream page txn should index pushing io timing chunks err made out.

(** The constructor: the first page is already there, nothing is pushed and
    no call is out. *)
Definition newResultStream (txnId : string)
    (executeResult : ExecuteStatementResult) : ResultStream :=
  mkStream (FirstPage executeResult) txnId true 0%nat false
    (_getIOUsage (ConsumedIOs executeResult))
    (_getTimingInformation (TimingInformation executeResult))
    [] None [] [].

Definition getConsumedIOs (s : ResultStream) : option IOUsageImpl :=
  _ioUsage s.

Definition getTimingInformation (s : ResultStream)
    : option TimingInformationImpl :=
  _timingInformation s.

(** [Readable.push]: the chunk joins the chunks pushed; the answer to a
    value is the consumer's, the answer to [null] is [false]. *)
Definition push (chunk : option Value) (s : ResultStream)
    : bool * ResultStream :=
  (match chunk with
   | Some _ => push_returns (List.length (pushed s))
   | None => false
   end,
   set_pushed (pushed s ++ [chunk]) s).

(** [Readable.destroy (e)]. *)
Definition destroy (e : Error) (s : ResultStream) : ResultStream :=
  set_destroyed (Some e) s.

(** Whether [null] was pushed: the [Readable] has seen the end of data. *)
Definition readableEnded (s : ResultStream) : bool :=
  existsb (fun c => match c with None => true | Some _ => false end)
          (pushed s).

Definition isDestroyed (s : ResultStream) : bool :=
  match destroyed s with Some _ => true | None => false end.

(** The [while] loop of [_pushPageValues], run over the values from
    [_retrieveIndex] on ([rest]); the answer is [canPush]. *)
Fixpoint pushValues (rest : list ValueHolder) (s : ResultStream)
    : bool * ResultStream :=
  match rest with
  | [] => (true, s)
  | v :: rest' =>
    let s := set_retrieveIndex (S (_retrieveIndex s)) s in
    let (canPush, s) := push (Some (dom_load (IonBinary v))) s in
    if canPush then pushValues rest' s
    else
      (false,
       set_shouldPushCachedPage
         (_retrieveIndex s <? List.length (Values (_cachedPage s)))%nat s)
  end.

(** [_pushPageValues] from the [while] loop to the end of the [finally]
    block; [read_again] is the call [this._read ()] made there. *)
Definition drain (read_again : ResultStream -> option ResultStream)
    (s : ResultStream) : option ResultStream :=
  let (canPush, s) :=
    pushValues (skipn (_retrieveIndex s) (Values (_cachedPage s))) s in
  let (canPush, s) :=
    if canPush then
      match nextToken (_cachedPage s) with
      | Some _ => (true, s)
      | None => (false, snd (push None s))
      end
    else (false, s) in
  let s := set_isPushingData false s in
  if canPush then read_again s else Some s.

(** [_pushPageValues] up to its [await]: either the cached page is drained
    at once, or [fetchPage] is called and the function is suspended. *)
Definition _pushPageValues (read_again : ResultStream -> option ResultStream)
    (s : ResultStream) : option ResultStream :=
  if _shouldPushCachedPage s
  then drain read_again (set_shouldPushCachedPage false s)
  else
    match nextToken (_cachedPage s) with
    | Some token =>
      let call := (_txnId s, token) in
      Some (set_fetches (fetchCalls s ++ [call]) (inFlight s ++ [call]) s)
    | None => drain read_again s
    end.

(** [_read].  Its calls nest through the [finally] block of
    [_pushPageValues]; [depth] bounds the nesting, [None] tells that the
    bound was too small. *)
Fixpoint _read (depth : nat) (s : ResultStream) : option ResultStream :=
  match depth with
  | O => None
  | S depth' =>
    if _isPushingData s then Some s
    else _pushPageValues (_read depth') (set_isPushingData true s)
  end.

(** [_pushPageValues] after its [await], when [fetchPage] has answered. *)
Definition fetchPage_fulfilled (depth : nat) (fetchPageResult : FetchPageResult)
    (s : ResultStream) : option ResultStream :=
  let s := set_cachedPage (fetchedPage fetchPageResult) s in
  let s :=
    match _ioUsage s, fetchedConsumedIOs fetchPageResult with
    | None, Some c => set_ioUsage (Some (mkIOUsageImpl (ReadIOs c))) s
    | None, None => s
    | Some u, c => set_ioUsage (Some (accumulateIOUsage c u)) s
    end in
  let s :=
    match _timingInformation s, fetchedTimingInformation fetchPageResult with
    | None, Some t =>
      set_timingInformation
        (Some (mkTimingInformationImpl (ProcessingTimeMilliseconds t))) s
    | None, None => s
    | Some u, t => set_timingInformation (Some (accumulateTimingInfo t u)) s
    end in
  let s := set_retrieveIndex 0%nat s in
  drain (_read depth) s.

(** [_pushPageValues] after its [await], when [fetchPage] has failed: the
    [catch] block, then the [finally] block with [canPush] false. *)
Definition fetchPage_rejected (e : Error) (s : ResultStream) : ResultStream :=
  set_isPushingData false (destroy e s).

(** What happens to a stream: the consumer asks for data, or the call in
    flight is answered. *)
Inductive Event : Type :=
| ReadRequest
| PageFetched (r : FetchPageResult)
| FetchFailed (e : Error).

(** One event.  [Readable] does not call [_read] once the end of data was
    pushed or the stream was destroyed; an answer with no call in flight
    does not happen and changes nothing. *)
Definition step (depth : nat) (ev : Event) (s : ResultStream)
    : option ResultStream :=
  match ev with
  | ReadRequest =>
    if readableEnded s || isDestroyed s then Some s else _read depth s
  | PageFetched r =>
    match inFlight s with
    | [] => Some s
    | _ :: flying =>
      fetchPage_fulfilled depth r (set_fetches (fetchCalls s) flying s)
    end
  | FetchFailed e =>
    match inFlight s with
    | [] => Some s
    | _ :: flying =>
      Some (fetchPage_rejected e (set_fetches (fetchCalls s) flying s))
    end
  end.

Fixpoint run (depth : nat) (evs : list Event) (s : ResultStream)
    : option ResultStream :=
  match evs with
  | [] => Some s
  | ev :: rest =>
    match step depth ev s with
    | Some s' => run depth rest s'
    | None => None
    end
  end.

(** A consumer that reads until the end, against a transport that answers
    each call with the next result of [script]: [rounds] bounds the number
    of events. *)
Fixpoint consume (rounds depth : nat) (script : list FetchPageResult)
    (s : ResultStream) : option ResultStream :=
  match rounds with
  | O => Some s
  | S rounds' =>
    match inFlight s with
    | _ :: _ =>
      match script with
      | r :: script' =>
        match step depth (PageFetched r) s with
        | Some s' => consume rounds' depth script' s'
        | None => None
        end
      | [] => Some s
      end
    | [] =>
      if readableEnded s || isDestroyed s then Some s
      else
        match step depth ReadRequest s with
        | Some s' => consume rounds' depth script s'
        | None => None
        end
    end
  end.

(* ===================================================================== *)
(** ** Vocabulary of the stream's statements *)
(* ===================================================================== *)

(** The chunks a list of undecoded values is pushed as. *)
Definition loaded (vs : list ValueHolder) : list (option Value) :=
  map (fun v => Some (dom_load (IonBinary v))) vs.

(** All the values of a list of pages, page after page. *)
Definition valuesOf (pages : list Page) : list ValueHolder :=
  flat_map Values pages.

(** The [fetchPage] call a page asks for: one when it carries a token. *)
Definition callOf (txnId : string) (p : Page) : list FetchCall :=
  match nextToken p with
  | Some t => [(txnId, t)]
  | None => []
  end.

(** The end-of-data signal, when it is due. *)
Definition endSignal (due : bool) : list (option Value) :=
  if due then [None] else [].

Definition hasToken (p : Page) : bool :=
  match nextToken p with Some _ => true | None => false end.

(** The execute result, seen as the first of the results received. *)
Definition firstResult (r : ExecuteStatementResult) : FetchPageResult :=
  mkFetchPageResult (FirstPage r) (ConsumedIOs r) (TimingInformation r).

(** The sum a list of reports stands for, a missing report counting for
    nothing, and whether any report is there at all. *)
Definition sumReadIOs (reports : list (option sdkIOUsage)) : Z :=
  fold_right (fun r acc => match r with
                           | Some c => ReadIOs c + acc
                           | None => acc
                           end)
             0 reports.

Definition sumProcessingTime (reports : list (option sdkTimingInformation))
    : Z :=
  fold_right (fun r acc => match r with
                           | Some t => ProcessingTimeMilliseconds t + acc
                           | None => acc
                           end)
             0 reports.

Definition anyReport {A : Type} (reports : list (option A)) : bool :=
  existsb (fun r => match r with Some _ => true | None => false end) reports.

Definition ioTotal (reports : list (option sdkIOUsage)) : option IOUsageImpl :=
  if anyReport reports then Some (mkIOUsageImpl (sumReadIOs reports)) else None.

Definition timingTotal (reports : list (option sdkTimingInformation))
    : option TimingInformationImpl :=
  if anyReport reports
  then Some (mkTimingInformationImpl (sumProcessingTime reports))
  else None.

(** The last push handed over a value and was answered [false]. *)
Definition refused (s : ResultStream) : bool :=
  match rev (pushed s) with
  | Some _ :: before => negb (push_returns (List.length before))
  | _ => false
  end.

Definition isReadRequest (ev : Event) : bool :=
  match ev with ReadRequest => true | _ => false end.

(** The state the [while] loop leaves after [k] pushes, with the flag
    [_shouldPushCachedPage] at [b]. *)
Definition afterPushes (rest : list ValueHolder) (k : nat) (b : bool)
    (s : ResultStream) : ResultStream :=
  set_shouldPushCachedPage b
    (set_retrieveIndex (_retrieveIndex s + k)
       (set_pushed (pushed s ++ loaded (firstn k rest)) s)).

(** What holds of a stream of transaction [txnId] that has received the
    results [prev] and then [cur], of which [cur] holds the cached page. *)
Record Inv (txnId : string) (prev : list FetchPageResult)
    (cur : FetchPageResult) (s : ResultStream) : Prop := mkInv {
  inv_txn : _txnId s = txnId;
  inv_page : _cachedPage s = fetchedPage cur;
  inv_index : (_retrieveIndex s <= List.length (Values (_cachedPage s)))%nat;
  inv_drained :
    _shouldPushCachedPage s = false ->
    _retrieveIndex s = List.length (Values (_cachedPage s));
  inv_pushed :
    pushed s
    = loaded (valuesOf (map fetchedPage prev)
              ++ firstn (_retrieveIndex s) (Values (_cachedPage s)))
      ++ endSignal (readableEnded s);
  inv_ended :
    readableEnded s = true ->
    nextToken (_cachedPage s) = None /\
    _retrieveIndex s = List.length (Values (_cachedPage s)) /\
    _shouldPushCachedPage s = false;
  inv_prev : Forall (fun r => hasToken (fetchedPage r) = true) prev;
  inv_calls :
    destroyed s = None ->
    fetchCalls s
    = flat_map (callOf txnId) (map fetchedPage prev) ++ inFlight s;
  inv_flight :
    (inFlight s = [] /\ _isPushingData s = false) \/
    (exists t,
       inFlight s = [(txnId, t)] /\ _isPushingData s = true /\
       nextToken (_cachedPage s) = Some t /\
       _shouldPushCachedPage s = false /\
       _retrieveIndex s = List.length (Values (_cachedPage s)) /\
       readableEnded s = false /\ destroyed s = None);
  inv_io :
    _ioUsage s = ioTotal (map fetchedConsumedIOs (prev ++ [cur]));
  inv_timing :
    _timingInformation s
    = timingTotal (map fetchedTimingInformation (prev ++ [cur]))
}.

(** The number of events [consume] may still need. *)
Definition roundsLeft (script : list FetchPageResult) (s : ResultStream)
    : nat :=
  (List.length (Values (_cachedPage s)) - _retrieveIndex s)
  + List.length (valuesOf (map fetchedPage script))
  + 2 * List.length script
  + (if _isPushingData s then 0 else 1).

(** The stream at the point where [_pushPageValues] enters its [while]
    loop: the cycle is on, no call is out, nothing ended. *)
Record Draining (txnId : string) (prev : list FetchPageResult)
    (cur : FetchPageResult) (s : ResultStream) : Prop := mkDraining {
  dr_txn : _txnId s = txnId;
  dr_page : _cachedPage s = fetchedPage cur;
  dr_index : (_retrieveIndex s <= List.length (Values (_cachedPage s)))%nat;
  dr_pushed :
    pushed s
    = loaded (valuesOf (map fetchedPage prev)
              ++ firstn (_retrieveIndex s) (Values (_cachedPage s)));
  dr_should : _shouldPushCachedPage s = false;
  dr_pushing : _isPushingData s = true;
  dr_flight : inFlight s = [];
  dr_alive : destroyed s = None;
  dr_prev : Forall (fun r => hasToken (fetchedPage r) = true) prev;
  dr_calls : fetchCalls s = flat_map (callOf txnId) (map fetchedPage prev);
  dr_io : _ioUsage s = ioTotal (map fetchedConsumedIOs (prev ++ [cur]));
  dr_timing :
    _timingInformation s
    = timingTotal (map fetchedTimingInformation (prev ++ [cur]))
}.

(** The three ways a push cycle that entered its loop in [s] comes to rest
    in [s']: a push was refused; the end of data was pushed; or the page
    was emptied and the next one is being fetched. *)
Definition Rested (s s' : ResultStream) : Prop :=
  destroyed s' = destroyed s /\
  _cachedPage s' = _cachedPage s /\
  ((inFlight s' = [] /\ _isPushingData s' = false /\
    readableEnded s' = false /\
    (_retrieveIndex s < _retrieveIndex s')%nat /\
    (List.length (pushed s) < List.length (pushed s'))%nat /\
    refused s' = true /\ fetchCalls s' = fetchCalls s) \/
   (inFlight s' = [] /\ _isPushingData s' = false /\
    readableEnded s' = true /\ refused s' = false /\
    fetchCalls s' = fetchCalls s) \/
   (inFlight s' <> [] /\ _isPushingData s' = true /\
    readableEnded s' = false /\
    _retrieveIndex s' = List.length (Values (_cachedPage s')) /\
    (pushed s' = pushed s \/ refused s' = false))).

(** The two pages of a result: [v1], [v2] and the token [t2], then [v3]
    and no token; the first page comes with the execute result. *)
Definition pageOne : Page :=
  mkPage [mkValueHolder "v1"; mkValueHolder "v2"] (Some "t2"%string).

Definition pageTwo : Page := mkPage [mkValueHolder "v3"] None.

Definition executedTwoPages : ExecuteStatementResult :=
  mkExecuteStatementResult pageOne (Some (mkIOUsage 3)) None.

Definition fetchedSecondPage : FetchPageResult :=
  mkFetchPageResult pageTwo (Some (mkIOUsage 4))
    (Some (mkTimingInformation 7)).

(** The result an event delivers to the stream: that of a page answer that
    finds a call in flight. *)
Definition served (ev : Event) (s : ResultStream) : option FetchPageResult :=
  match ev, inFlight s with
  | PageFetched r, _ :: _ => Some r
  | _, _ => None
  end.

(** The results delivered in the course of a run of events, in order. *)
Fixpoint delivered (depth : nat) (evs : list Event) (s : ResultStream)
    : list FetchPageResult :=
  match evs with
  | [] => []
  | ev :: rest =>
    match step depth ev s with
    | Some s' =>
      match served ev s with
      | Some r => r :: delivered depth rest s'
      | None => delivered depth rest s'
      end
    | None => []
    end
  end.

(** The [fetchPage] calls made so far: one for each result received after
    the first, those in flight, and the one that failed, if one did. *)
Definition Counted (prev : list FetchPageResult) (s : ResultStream) : Prop :=
  List.length (fetchCalls s)
  = (List.length prev + List.length (inFlight s)
     + (if isDestroyed s then 1 else 0))%nat.

(* ===================================================================== *)
(** ** Properties of the stream *)
(* ===================================================================== *)

(** Proofs work on a stream taken apart into its fields. *)
Ltac open_stream s :=
  destruct s as [page txn should index pushing io timing chunks err calls
                 flying];
  simpl in *.

Lemma existsb_loaded : forall vs,
  existsb (fun c : option Value =>
             match c with None => true | Some _ => false end) (loaded vs)
  = false.
Proof. induction vs as [|v vs IH]; simpl; auto. Qed.

Lemma loaded_app : forall a b, loaded (a ++ b) = loaded a ++ loaded b.
Proof. intros a b. unfold loaded. apply map_app. Qed.

Lemma loaded_length : forall vs, List.length (loaded vs) = List.length vs.
Proof. intros vs. unfold loaded. apply length_map. Qed.

(** The [while] loop pushes the next [k] values in order and touches nothing
    but the index, the chunks pushed and, when a push is refused, the flag;
    it stops early exactly when its last push is refused. *)
Lemma pushValues_spec : forall rest s,
  exists k,
    (k <= List.length rest)%nat /\
    ((pushValues rest s
      = (true, afterPushes rest k (_shouldPushCachedPage s) s) /\
      k = List.length rest /\
      (forall i, (i < k)%nat ->
                 push_returns (List.length (pushed s) + i) = true)) \/
     (pushValues rest s
      = (false,
         afterPushes rest k
           (_retrieveIndex s + k <? List.length (Values (_cachedPage s)))%nat
           s) /\
      (1 <= k)%nat /\
      push_returns (List.length (pushed s) + k - 1) = false)).
Proof.
  induction rest as [|v rest IH]; intros s.
  - exists 0%nat. split; [simpl; lia|]. left. split; [|split].
    + open_stream s. unfold afterPushes. simpl.
      rewrite Nat.add_0_r, app_nil_r. reflexivity.
    + reflexivity.
    + intros i Hi. lia.
  - destruct (IH (set_pushed (pushed s ++ [Some (dom_load (IonBinary v))])
                    (set_retrieveIndex (S (_retrieveIndex s)) s)))
      as [k [Hk Hcases]].
    open_stream s. unfold push. simpl.
    destruct (push_returns (List.length chunks)) eqn:A.
    + destruct Hcases as [[E [Hl Ht]]|[E [H1 Hr]]].
      * exists (S k). split; [lia|]. left. split; [|split].
        -- rewrite E. unfold afterPushes. simpl.
           rewrite <- app_assoc, Nat.add_succ_r. reflexivity.
        -- lia.
        -- intros [|i] Hi.
           ++ now rewrite Nat.add_0_r.
           ++ specialize (Ht i ltac:(lia)).
              rewrite length_app in Ht. simpl in Ht.
              replace (List.length chunks + S i)%nat
                with (List.length chunks + 1 + i)%nat by lia.
              exact Ht.
      * exists (S k). split; [lia|]. right. split; [|split].
        -- rewrite E. unfold afterPushes. simpl.
           rewrite <- app_assoc, Nat.add_succ_r. reflexivity.
        -- lia.
        -- rewrite length_app in Hr. simpl in Hr.
           replace (List.length chunks + S k - 1)%nat
             with (List.length chunks + 1 + k - 1)%nat by lia.
           exact Hr.
    + exists 1%nat. split; [lia|]. right. split; [|split].
      * unfold afterPushes. simpl. rewrite Nat.add_1_r. reflexivity.
      * lia.
      * replace (List.length chunks + 1 - 1)%nat
          with (List.length chunks) by lia. exact A.
Qed.

Lemma firstn_plus : forall (A : Type) (n m : nat) (l : list A),
  firstn (n + m) l = firstn n l ++ firstn m (skipn n l).
Proof.
  intros A n. induction n as [|n IH]; intros m l; simpl; [reflexivity|].
  destruct l as [|x l]; simpl.
  - now rewrite firstn_nil.
  - now rewrite IH.
Qed.

(** [refused] reads the answer to the last push. *)
Lemma refused_last_value : forall s l v,
  pushed s = l ++ [Some v] ->
  refused s = negb (push_returns (List.length l)).
Proof.
  intros s l v H. unfold refused. rewrite H, rev_app_distr. simpl.
  now rewrite length_rev.
Qed.

Lemma refused_last_end : forall s l,
  pushed s = l ++ [None] -> refused s = false.
Proof.
  intros s l H. unfold refused. rewrite H, rev_app_distr. reflexivity.
Qed.

(** A nonempty run of loaded values ends with a value. *)
Lemma loaded_firstn_last : forall k rest,
  (1 <= k <= List.length rest)%nat ->
  exists l v,
    loaded (firstn k rest) = l ++ [Some v] /\ List.length l = (k - 1)%nat.
Proof.
  intros k rest Hk.
  assert (N : firstn k rest <> []).
  { intros E. apply (f_equal (@List.length _)) in E.
    rewrite length_firstn in E. simpl in E. lia. }
  destruct (exists_last N) as [l [x E]].
  exists (loaded l), (dom_load (IonBinary x)). split.
  - rewrite E, loaded_app. reflexivity.
  - rewrite loaded_length.
    apply (f_equal (@List.length _)) in E.
    rewrite length_firstn, length_app in E. simpl in E. lia.
Qed.

Lemma refused_after : forall (s' : ResultStream) before k rest,
  (1 <= k <= List.length rest)%nat ->
  pushed s' = before ++ loaded (firstn k rest) ->
  refused s' = negb (push_returns (List.length before + k - 1)).
Proof.
  intros s' before k rest Hk H.
  destruct (loaded_firstn_last k rest Hk) as [l [v [E L]]].
  rewrite E, app_assoc in H.
  rewrite (refused_last_value _ _ _ H), length_app, L.
  do 2 f_equal. lia.
Qed.

Lemma ended_loaded : forall a b,
  existsb (fun c : option Value =>
             match c with None => true | Some _ => false end)
          (loaded a ++ loaded b) = false.
Proof. intros a b. rewrite <- loaded_app. apply existsb_loaded. Qed.

Lemma ended_end : forall l : list (option Value),
  existsb (fun c : option Value =>
             match c with None => true | Some _ => false end)
          (l ++ [None]) = true.
Proof. intros l. rewrite existsb_app. simpl. apply orb_true_r. Qed.

(** A push cycle that enters its loop comes to rest in one of the three
    ways, in a state the invariant holds of. *)
Lemma drain_rests : forall depth txnId prev cur s,
  Draining txnId prev cur s ->
  (1 <= depth)%nat ->
  exists s',
    drain (_read depth) s = Some s' /\ Inv txnId prev cur s' /\ Rested s s'.
Proof.
  intros depth txnId prev cur s D Hd.
  destruct depth as [|depth]; [lia|].
  destruct D as [Dtxn Dpage Didx Dpushed Dshould Dpushing Dflight Dalive
                 Dprev Dcalls Dio Dtiming].
  open_stream s. subst.
  set (vals := Values (fetchedPage cur)) in *.
  set (before := valuesOf (map fetchedPage prev)) in *.
  set (rest := skipn index vals).
  assert (Lrest : List.length rest = (List.length vals - index)%nat).
  { unfold rest. apply length_skipn. }
  assert (PA : forall k, loaded (before ++ firstn index vals)
                         ++ loaded (firstn k rest)
                         = loaded (before ++ firstn (index + k) vals)).
  { intros k. unfold rest. rewrite firstn_plus, !loaded_app, app_assoc.
    reflexivity. }
  match goal with |- context [drain _ ?s0] =>
    destruct (pushValues_spec rest s0) as [k [Hk [[E [Hl Ht]]|[E [H1 Hr]]]]]
  end; unfold afterPushes in E; simpl in *; unfold drain; simpl;
    fold vals; fold rest; rewrite E; simpl.
  - (* every push was accepted *)
    assert (Hidx : (index + k = List.length vals)%nat) by lia.
    assert (Rf : k = 0%nat \/
                 forall s' : ResultStream,
                   pushed s' = loaded (before ++ firstn index vals)
                               ++ loaded (firstn k rest) ->
                   refused s' = false).
    { destruct k as [|k]; [now left|right]. intros s' Hs'.
      rewrite (refused_after s' (loaded (before ++ firstn index vals)) (S k)
                 rest);
        [|lia|exact Hs'].
      replace (List.length (loaded (before ++ firstn index vals)) + S k - 1)%nat
        with (List.length (loaded (before ++ firstn index vals)) + k)%nat
        by lia.
      rewrite Ht; [reflexivity|lia]. }
    destruct (nextToken (fetchedPage cur)) as [t|] eqn:T; simpl.
    + (* a token: the next page is fetched *)
      unfold _pushPageValues. simpl. rewrite T.
      eexists. split; [reflexivity|]. split.
      * constructor; unfold readableEnded; simpl; fold vals;
          rewrite ?PA, ?existsb_loaded, ?Hidx; auto.
        -- unfold endSignal. now rewrite app_nil_r.
        -- discriminate.
        -- right. exists t. repeat split; auto.
      * unfold Rested, readableEnded. simpl. fold vals.
        rewrite PA, existsb_loaded.
        split; [reflexivity|]. split; [reflexivity|].
        right. right. repeat split; auto; try discriminate.
        destruct Rf as [->|Rf].
        -- left. simpl. rewrite Nat.add_0_r. reflexivity.
        -- right. apply Rf. simpl. now rewrite PA.
    + (* no token: the end of data is pushed *)
      eexists. split; [reflexivity|]. split.
      * constructor; unfold readableEnded; simpl; fold vals;
          rewrite ?ended_end, ?PA, ?Hidx; auto.
        now rewrite app_nil_r.
      * unfold Rested, readableEnded. simpl.
        rewrite ended_end.
        split; [reflexivity|]. split; [reflexivity|].
        right. left. repeat split; auto.
        eapply refused_last_end. reflexivity.
  - (* the last push was refused *)
    assert (Hidx : (index + k <= List.length vals)%nat) by lia.
    eexists. split; [reflexivity|]. split.
    + constructor; unfold readableEnded; simpl; fold vals;
        rewrite ?PA, ?existsb_loaded; auto.
      * intros B. apply Nat.ltb_ge in B. lia.
      * unfold endSignal. now rewrite app_nil_r.
      * discriminate.
      * now rewrite app_nil_r.
    + unfold Rested, readableEnded. simpl.
      rewrite ended_loaded.
      split; [reflexivity|]. split; [reflexivity|].
      left. repeat split; auto.
      * lia.
      * rewrite length_app, !loaded_length, length_firstn. lia.
      * rewrite (refused_after _ (loaded (before ++ firstn index vals)) k rest);
          [|lia|reflexivity].
        now rewrite Hr.
Qed.

Lemma anyReport_snoc : forall (A : Type) (reports : list (option A)) c,
  anyReport (reports ++ [c])
  = anyReport reports || match c with Some _ => true | None => false end.
Proof.
  intros A reports c. unfold anyReport. rewrite existsb_app. simpl.
  now rewrite orb_false_r.
Qed.

Lemma sumReadIOs_snoc : forall reports c,
  sumReadIOs (reports ++ [c])
  = sumReadIOs reports + match c with Some c => ReadIOs c | None => 0 end.
Proof.
  induction reports as [|r reports IH]; intros c; simpl.
  - destruct c; lia.
  - rewrite IH. destruct r; lia.
Qed.

Lemma sumReadIOs_none : forall reports,
  anyReport reports = false -> sumReadIOs reports = 0.
Proof.
  induction reports as [|[r|] reports IH]; simpl; intros H;
    [reflexivity|discriminate|auto].
Qed.

Lemma sumProcessingTime_snoc : forall reports c,
  sumProcessingTime (reports ++ [c])
  = sumProcessingTime reports
    + match c with Some c => ProcessingTimeMilliseconds c | None => 0 end.
Proof.
  induction reports as [|r reports IH]; intros c; simpl.
  - destruct c; lia.
  - rewrite IH. destruct r; lia.
Qed.

Lemma sumProcessingTime_none : forall reports,
  anyReport reports = false -> sumProcessingTime reports = 0.
Proof.
  induction reports as [|[r|] reports IH]; simpl; intros H;
    [reflexivity|discriminate|auto].
Qed.

(** One more report, as the code folds it into the accumulator. *)
Lemma ioTotal_snoc : forall reports c,
  ioTotal (reports ++ [c])
  = match ioTotal reports, c with
    | None, Some c => Some (mkIOUsageImpl (ReadIOs c))
    | None, None => None
    | Some u, c => Some (accumulateIOUsage c u)
    end.
Proof.
  intros reports c. unfold ioTotal.
  rewrite anyReport_snoc, sumReadIOs_snoc.
  destruct (anyReport reports) eqn:A; simpl.
  - destruct c; simpl; [reflexivity|]. now rewrite Z.add_0_r.
  - rewrite (sumReadIOs_none _ A). destruct c; reflexivity.
Qed.

Lemma timingTotal_snoc : forall reports c,
  timingTotal (reports ++ [c])
  = match timingTotal reports, c with
    | None, Some c =>
      Some (mkTimingInformationImpl (ProcessingTimeMilliseconds c))
    | None, None => None
    | Some u, c => Some (accumulateTimingInfo c u)
    end.
Proof.
  intros reports c. unfold timingTotal.
  rewrite anyReport_snoc, sumProcessingTime_snoc.
  destruct (anyReport reports) eqn:A; simpl.
  - destruct c; simpl; [reflexivity|]. now rewrite Z.add_0_r.
  - rewrite (sumProcessingTime_none _ A). destruct c; reflexivity.
Qed.

Lemma hasToken_callOf : forall txnId p t,
  nextToken p = Some t ->
  hasToken p = true /\ callOf txnId p = [(txnId, t)].
Proof. intros txnId p t H. unfold hasToken, callOf. now rewrite H. Qed.

(** The constructor establishes the invariant. *)
Lemma newResultStream_Inv : forall txnId executeResult,
  Inv txnId [] (firstResult executeResult)
      (newResultStream txnId executeResult).
Proof.
  intros txnId r. constructor; simpl; auto; try discriminate.
  - lia.
  - unfold ioTotal. simpl. destruct (ConsumedIOs r); simpl;
      [now rewrite Z.add_0_r|reflexivity].
  - unfold timingTotal. simpl. destruct (TimingInformation r); simpl;
      [now rewrite Z.add_0_r|reflexivity].
Qed.

(** A read request that is served brings the stream to rest, in a state
    the invariant holds of. *)
Lemma read_rests : forall depth txnId prev cur s,
  Inv txnId prev cur s ->
  (2 <= depth)%nat ->
  _isPushingData s = false ->
  readableEnded s = false ->
  destroyed s = None ->
  exists s',
    _read depth s = Some s' /\ Inv txnId prev cur s' /\ Rested s s'.
Proof.
  intros depth txnId prev cur s I Hd P En Al.
  destruct depth as [|depth]; [lia|].
  destruct I as [Itxn Ipage Iidx Idrained Ipushed Iended Iprev Icalls Iflight
                 Iio Itiming].
  destruct Iflight as [[Fl _]|[t [_ [P' _]]]]; [|congruence].
  rewrite En in Ipushed. unfold endSignal in Ipushed.
  rewrite app_nil_r in Ipushed. specialize (Icalls Al).
  rewrite Fl, app_nil_r in Icalls.
  destruct (_shouldPushCachedPage s) eqn:Sh.
  - (* the cached page is taken up where it was left *)
    destruct (drain_rests depth txnId prev cur
                (set_shouldPushCachedPage false (set_isPushingData true s)))
      as [s' [E [I' R]]]; [|lia|].
    { open_stream s. constructor; simpl; auto. }
    exists s'. open_stream s. subst. unfold _pushPageValues. simpl.
    split; [exact E|]. split; [exact I'|exact R].
  - destruct (nextToken (_cachedPage s)) as [t|] eqn:T.
    + (* the page is done: the next one is asked for *)
      specialize (Idrained eq_refl).
      open_stream s. subst. unfold _pushPageValues. simpl. rewrite T.
      eexists. split; [reflexivity|]. split.
      * constructor; simpl; auto.
        -- unfold readableEnded in *. simpl in *. rewrite En.
           unfold endSignal. now rewrite app_nil_r.
        -- unfold readableEnded in *. simpl in *. rewrite En. discriminate.
        -- right. exists t. repeat split; auto.
      * unfold Rested. simpl. split; [reflexivity|]. split; [reflexivity|].
        right. right. repeat split; auto. discriminate.
    + (* the page is done and was the last *)
      destruct (drain_rests depth txnId prev cur (set_isPushingData true s))
        as [s' [E [I' R]]]; [|lia|].
      { open_stream s. constructor; simpl; auto. }
      exists s'. open_stream s. subst. unfold _pushPageValues. simpl.
      rewrite T. split; [exact E|]. split; [exact I'|exact R].
Qed.

Lemma valuesOf_snoc : forall pages p,
  valuesOf (pages ++ [p]) = valuesOf pages ++ Values p.
Proof.
  intros pages p. unfold valuesOf. rewrite flat_map_app. simpl.
  now rewrite app_nil_r.
Qed.

(** The accumulators after one more result, as [_pushPageValues] updates
    them between the [await] and the [while] loop. *)
Lemma fulfilled_totals : forall prev cur r s s0,
  _ioUsage s = ioTotal (map fetchedConsumedIOs (prev ++ [cur])) ->
  _timingInformation s
  = timingTotal (map fetchedTimingInformation (prev ++ [cur])) ->
  s0 = (let s := set_cachedPage (fetchedPage r) s in
        let s :=
          match _ioUsage s, fetchedConsumedIOs r with
          | None, Some c => set_ioUsage (Some (mkIOUsageImpl (ReadIOs c))) s
          | None, None => s
          | Some u, c => set_ioUsage (Some (accumulateIOUsage c u)) s
          end in
        let s :=
          match _timingInformation s, fetchedTimingInformation r with
          | None, Some t =>
            set_timingInformation
              (Some (mkTimingInformationImpl (ProcessingTimeMilliseconds t)))
              s
          | None, None => s
          | Some u, t =>
            set_timingInformation (Some (accumulateTimingInfo t u)) s
          end in
        set_retrieveIndex 0%nat s) ->
  s0 = mkStream (fetchedPage r) (_txnId s) (_shouldPushCachedPage s) 0%nat
         (_isPushingData s)
         (ioTotal (map fetchedConsumedIOs ((prev ++ [cur]) ++ [r])))
         (timingTotal (map fetchedTimingInformation ((prev ++ [cur]) ++ [r])))
         (pushed s) (destroyed s) (fetchCalls s) (inFlight s).
Proof.
  intros prev cur r s s0 Hio Hti ->.
  rewrite (map_app fetchedConsumedIOs), (map_app fetchedTimingInformation).
  simpl. rewrite ioTotal_snoc, timingTotal_snoc, <- Hio, <- Hti.
  open_stream s.
  destruct io, (fetchedConsumedIOs r), timing, (fetchedTimingInformation r);
    reflexivity.
Qed.

(** The answer to the call in flight is folded into the accumulators, the
    new page is drained, and the stream comes to rest. *)
Lemma fulfilled_rests : forall depth txnId prev cur s r,
  Inv txnId prev cur s ->
  (1 <= depth)%nat ->
  inFlight s <> [] ->
  exists s',
    step depth (PageFetched r) s = Some s' /\
    Inv txnId (prev ++ [cur]) r s' /\
    Rested (set_retrieveIndex 0 (set_cachedPage (fetchedPage r) s)) s'.
Proof.
  intros depth txnId prev cur s r I Hd Fl.
  destruct I as [Itxn Ipage Iidx Idrained Ipushed Iended Iprev Icalls Iflight
                 Iio Itiming].
  destruct Iflight as [[Fl' _]|[t [Ft [P [T [Sh [Ix [En Al]]]]]]]];
    [congruence|].
  rewrite En in Ipushed. unfold endSignal in Ipushed.
  rewrite app_nil_r, Ix, firstn_all in Ipushed.
  specialize (Icalls Al).
  destruct (hasToken_callOf txnId _ t T) as [Ht Hc].
  unfold step. rewrite Ft. unfold fetchPage_fulfilled.
  match goal with |- exists s', drain _ ?s0 = _ /\ _ =>
    pose proof (fulfilled_totals prev cur r
                  (set_fetches (fetchCalls s) [] s) s0) as Hs0
  end.
  open_stream s. subst. specialize (Hs0 eq_refl eq_refl eq_refl).
  rewrite Hs0. clear Hs0.
  match goal with |- exists s', drain _ ?s0 = _ /\ _ =>
    destruct (drain_rests depth txnId (prev ++ [cur]) r s0)
      as [s' [E [I' R]]]; [|lia|]
  end.
  { constructor; simpl; auto.
    - lia.
    - rewrite map_app. change (map fetchedPage [cur]) with [fetchedPage cur].
      now rewrite valuesOf_snoc, app_nil_r.
    - apply Forall_app. split; [exact Iprev|].
      constructor; [exact Ht|constructor].
    - rewrite map_app, flat_map_app. simpl. rewrite app_nil_r, Hc.
      reflexivity. }
  exists s'. split; [exact E|]. split; [exact I'|exact R].
Qed.

(** Every event is served or ignored, and leaves a state the invariant
    holds of.  An event is ignored when it is a read request during a push
    cycle or after the end, or an answer to no call. *)
Lemma step_Inv : forall depth txnId prev cur s ev,
  Inv txnId prev cur s ->
  (2 <= depth)%nat ->
  exists s' prev' cur',
    step depth ev s = Some s' /\
    Inv txnId prev' cur' s' /\
    (s' = s \/
     (ev = ReadRequest /\ Rested s s') \/
     (exists r,
        ev = PageFetched r /\
        Rested (set_retrieveIndex 0 (set_cachedPage (fetchedPage r) s)) s') \/
     (exists e,
        ev = FetchFailed e /\ inFlight s' = [] /\ pushed s' = pushed s /\
        fetchCalls s' = fetchCalls s)).
Proof.
  intros depth txnId prev cur s ev I Hd.
  destruct ev as [|r|e].
  - (* a read request *)
    unfold step.
    destruct (readableEnded s) eqn:En; simpl;
      [exists s, prev, cur; auto|].
    unfold isDestroyed. destruct (destroyed s) eqn:Al;
      [exists s, prev, cur; auto|].
    destruct (_isPushingData s) eqn:P.
    + exists s, prev, cur. split; [|auto].
      destruct depth; [lia|]. simpl. now rewrite P.
    + destruct (read_rests depth txnId prev cur s I Hd P En Al)
        as [s' [E [I' R]]].
      exists s', prev, cur. split; [exact E|]. split; [exact I'|].
      right. left. auto.
  - (* the call in flight is answered *)
    destruct (inFlight s) as [|c flying] eqn:Fl.
    + exists s, prev, cur. simpl. rewrite Fl. auto.
    + destruct (fulfilled_rests depth txnId prev cur s r I) as [s' [E [I' R]]];
        [lia|rewrite Fl; discriminate|].
      exists s', (prev ++ [cur]), r. split; [exact E|]. split; [exact I'|].
      right. right. left. exists r. auto.
  - (* the call in flight fails *)
    destruct (inFlight s) as [|c flying] eqn:Fl.
    + exists s, prev, cur. simpl. rewrite Fl. auto.
    + destruct I as [Itxn Ipage Iidx Idrained Ipushed Iended Iprev Icalls
                     Iflight Iio Itiming].
      destruct Iflight as [[Fl' _]|[t [Ft [P [T [Sh [Ix [En Al]]]]]]]];
        [congruence|].
      assert (flying = []) by (rewrite Ft in Fl; now injection Fl).
      subst flying.
      eexists. exists prev, cur. simpl. rewrite Fl.
      split; [reflexivity|].
      unfold fetchPage_rejected, destroy, readableEnded in *.
      open_stream s. subst. split.
      * constructor; simpl; auto. discriminate.
      * right. right. right. exists e. auto.
Qed.

Lemma run_Inv : forall depth txnId evs prev cur s,
  Inv txnId prev cur s ->
  (2 <= depth)%nat ->
  exists s' prev' cur',
    run depth evs s = Some s' /\ Inv txnId prev' cur' s'.
Proof.
  intros depth txnId evs. induction evs as [|ev evs IH]; intros prev cur s I Hd.
  - exists s, prev, cur. auto.
  - destruct (step_Inv depth txnId prev cur s ev I Hd)
      as [s1 [prev1 [cur1 [E [I1 _]]]]].
    simpl. rewrite E. apply (IH prev1 cur1 s1 I1 Hd).
Qed.

(** With no call in flight, only a read request changes anything. *)
Lemma run_quiet : forall depth quiet s,
  inFlight s = [] ->
  forallb (fun ev => negb (isReadRequest ev)) quiet = true ->
  run depth quiet s = Some s.
Proof.
  intros depth quiet s Fl. induction quiet as [|ev quiet IH]; simpl;
    [reflexivity|].
  intros H. apply andb_true_iff in H. destruct H as [Hev Hq].
  destruct ev as [|r|e]; simpl in *; [discriminate| |]; rewrite Fl; auto.
Qed.

(** C6.  In every state a stream can reach, at most one [fetchPage] call is
    in flight, and a read request that arrives while a push cycle is on
    ([_isPushingData]) changes nothing.  Whenever an event makes the stream
    push and its last push is refused, the cycle stops there: no call is in
    flight, no [fetchPage] call was added, and none is made by whatever
    follows short of a new read request. *)
Theorem stream_single_flight_and_backpressure :
  forall txnId executeResult depth evs,
    (2 <= depth)%nat ->
    exists s,
      run depth evs (newResultStream txnId executeResult) = Some s /\
      (List.length (inFlight s) <= 1)%nat /\
      (_isPushingData s = true -> step depth ReadRequest s = Some s) /\
      (forall ev,
       exists s',
         step depth ev s = Some s' /\
         (List.length (inFlight s') <= 1)%nat /\
         ((List.length (pushed s) < List.length (pushed s'))%nat ->
          refused s' = true ->
          inFlight s' = [] /\
          _isPushingData s' = false /\
          fetchCalls s' = fetchCalls s /\
          forall quiet,
            forallb (fun e => negb (isReadRequest e)) quiet = true ->
            run depth quiet s' = Some s')).
Proof.
  intros txnId r depth evs Hd.
  destruct (run_Inv depth txnId evs [] (firstResult r)
              (newResultStream txnId r) (newResultStream_Inv txnId r) Hd)
    as [s [prev [cur [E I]]]].
  assert (One : forall p c x, Inv txnId p c x ->
                              (List.length (inFlight x) <= 1)%nat).
  { intros p c x Ix. destruct (inv_flight _ _ _ _ Ix) as [[F _]|[t [F _]]];
      rewrite F; simpl; lia. }
  exists s. split; [exact E|]. split; [apply (One _ _ _ I)|]. split.
  - intros P. unfold step.
    destruct (readableEnded s || isDestroyed s); [reflexivity|].
    destruct depth; [lia|]. simpl. now rewrite P.
  - intros ev.
    destruct (step_Inv depth txnId prev cur s ev I Hd)
      as [s' [prev' [cur' [E' [I' Hcase]]]]].
    exists s'. split; [exact E'|]. split; [apply (One _ _ _ I')|].
    intros Hgrow Href.
    assert (Hrest : forall s0 : ResultStream,
              pushed s0 = pushed s -> fetchCalls s0 = fetchCalls s ->
              Rested s0 s' ->
              inFlight s' = [] /\ _isPushingData s' = false /\
              fetchCalls s' = fetchCalls s).
    { intros s0 Hp Hf [_ [_ [R|[R|R]]]].
      - destruct R as [F [P [_ [_ [_ [_ C]]]]]]. rewrite C. auto.
      - destruct R as [_ [_ [_ [Rf _]]]]. congruence.
      - destruct R as [_ [_ [_ [_ [Rp|Rf]]]]]; [|congruence].
        rewrite Rp, Hp in Hgrow. lia. }
    assert (Hall : inFlight s' = [] /\ _isPushingData s' = false /\
                   fetchCalls s' = fetchCalls s).
    { destruct Hcase as [->|[[_ R]|[[r' [_ R]]|[e [_ [_ [Hp _]]]]]]].
      - lia.
      - apply (Hrest s); auto.
      - apply (Hrest (set_retrieveIndex 0 (set_cachedPage (fetchedPage r') s)));
          [now destruct s|now destruct s|exact R].
      - rewrite Hp in Hgrow. lia. }
    destruct Hall as [F [P C]]. repeat split; auto.
    intros quiet Hq. now apply run_quiet.
Qed.

(** Once the end of data was pushed, the consumer reads no more. *)
Lemma consume_ended : forall rounds depth script s,
  inFlight s = [] -> readableEnded s = true ->
  consume rounds depth script s = Some s.
Proof.
  intros [|rounds] depth script s F E; simpl; [reflexivity|].
  now rewrite F, E.
Qed.

(** The consumer that reads on gets, within [roundsLeft] events, to the end
    of data, or to a call that the script has no answer for. *)
Lemma consume_spec : forall depth txnId rounds script prev cur s,
  Inv txnId prev cur s ->
  (2 <= depth)%nat ->
  destroyed s = None ->
  (roundsLeft script s <= rounds)%nat ->
  exists s' prev' cur' script',
    consume rounds depth script s = Some s' /\
    Inv txnId prev' cur' s' /\
    prev ++ cur :: script = prev' ++ cur' :: script' /\
    ((readableEnded s' = true /\ inFlight s' = [] /\ destroyed s' = None) \/
     (readableEnded s' = false /\ inFlight s' <> [] /\ script' = [])).
Proof.
  intros depth txnId rounds.
  induction rounds as [|rounds IH]; intros script prev cur s I Hd Al Hr.
  - (* no round left: a call is out and the script is empty *)
    unfold roundsLeft in Hr.
    destruct (inv_flight _ _ _ _ I) as [[F P]|[t [F [P [_ [_ [_ [En _]]]]]]]];
      rewrite P in Hr; [lia|].
    destruct script as [|r script]; [|simpl in Hr; lia].
    exists s, prev, cur, []. simpl.
    split; [reflexivity|]. split; [exact I|]. split; [reflexivity|].
    right. rewrite F. split; [exact En|]. split; [discriminate|reflexivity].
  - cbn [consume]. destruct (inFlight s) as [|c flying] eqn:F.
    + (* idle *)
      unfold step.
      destruct (readableEnded s) eqn:En; cbn [orb].
      { exists s, prev, cur, script.
        split; [reflexivity|]. split; [exact I|]. split; [reflexivity|].
        left. auto. }
      unfold isDestroyed. rewrite Al.
      destruct (inv_flight _ _ _ _ I) as [[_ P]|[t [F' _]]]; [|congruence].
      destruct (read_rests depth txnId prev cur s I Hd P En Al)
        as [s1 [E [I1 R]]].
      rewrite E.
      destruct R as [Rd [Rc [R|[R|R]]]].
      * (* a push was refused: the index moved on *)
        destruct R as [F1 [P1 [_ [Hi _]]]].
        apply (IH script prev cur s1 I1 Hd); [congruence|].
        pose proof (inv_index _ _ _ _ I1) as Hle.
        unfold roundsLeft in *. rewrite P in Hr. rewrite Rc in Hle.
        rewrite P1, Rc. lia.
      * (* the end of data was pushed *)
        destruct R as [F1 [_ [E1 _]]].
        rewrite (consume_ended _ _ _ _ F1 E1).
        exists s1, prev, cur, script.
        split; [reflexivity|]. split; [exact I1|]. split; [reflexivity|].
        left. repeat split; auto. congruence.
      * (* the next page is asked for *)
        destruct R as [_ [P1 [_ [Hi _]]]].
        apply (IH script prev cur s1 I1 Hd); [congruence|].
        unfold roundsLeft in *. rewrite P in Hr. rewrite P1, Hi. lia.
    + (* a call is out *)
      destruct script as [|r script].
      * exists s, prev, cur, [].
        split; [reflexivity|]. split; [exact I|]. split; [reflexivity|].
        right.
        destruct (inv_flight _ _ _ _ I)
          as [[F' _]|[t [_ [_ [_ [_ [_ [En _]]]]]]]]; [congruence|].
        rewrite F. split; [exact En|]. split; [discriminate|reflexivity].
      * destruct (fulfilled_rests depth txnId prev cur s r I)
          as [s1 [E [I1 R]]];
          [lia|rewrite F; discriminate|].
        rewrite E.
        destruct R as [Rd [Rc _]].
        assert (Rd' : destroyed s1 = destroyed s)
          by (rewrite Rd; now destruct s).
        assert (Rc' : _cachedPage s1 = fetchedPage r)
          by (rewrite Rc; now destruct s).
        clear Rd Rc.
        destruct (IH script (prev ++ [cur]) r s1 I1 Hd) as
          [s' [prev' [cur' [script' [E' [I' [Hh Hf]]]]]]]; [congruence| |].
        { unfold roundsLeft in *. rewrite Rc'. simpl in Hr.
          unfold valuesOf in *. simpl in Hr. rewrite length_app in Hr.
          destruct (_isPushingData s1); lia. }
        exists s', prev', cur', script'.
        split; [exact E'|]. split; [exact I'|]. split; [|exact Hf].
        rewrite <- Hh, <- app_assoc. reflexivity.
Qed.


Lemma anyReport_None : forall (A B : Type) (reports : list (option A)) (x : B),
  (if anyReport reports then Some x else None) = None <->
  Forall (fun c => c = None) reports.
Proof.
  intros A B reports x. induction reports as [|[c|] reports IH]; simpl.
  - split; auto.
  - split; [discriminate|]. intros H. inversion H. discriminate.
  - rewrite IH. split; [auto|]. intros H. now inversion H.
Qed.

Lemma removelast_middle : forall (A : Type) (l1 l2 : list A) x y,
  In x (removelast (l1 ++ x :: y :: l2)).
Proof.
  intros A l1 l2 x y. rewrite removelast_app; [|discriminate].
  apply in_or_app. right. now left.
Qed.

(** Against a script whose pages all but the last carry a token, the
    consumer that reads on takes in every result of the script, and stops
    at the end of data or with a call out that the script has no answer
    for. *)
Lemma consume_full : forall txnId executeResult script rounds depth,
  Forall (fun p => hasToken p = true)
         (removelast (map fetchedPage (firstResult executeResult :: script))) ->
  (2 <= depth)%nat ->
  (List.length (valuesOf (map fetchedPage
                            (firstResult executeResult :: script)))
   + 2 * List.length script + 1 <= rounds)%nat ->
  exists s prev cur,
    consume rounds depth script (newResultStream txnId executeResult)
    = Some s /\
    Inv txnId prev cur s /\
    firstResult executeResult :: script = prev ++ [cur] /\
    destroyed s = None /\
    _retrieveIndex s = List.length (Values (_cachedPage s)) /\
    readableEnded s = negb (hasToken (fetchedPage cur)) /\
    inFlight s = callOf txnId (fetchedPage cur).
Proof.
  intros txnId r script rounds depth Chain Hd Hr.
  destruct (consume_spec depth txnId rounds script [] (firstResult r)
              (newResultStream txnId r) (newResultStream_Inv txnId r) Hd
              eq_refl)
    as [s [prev [cur [script' [E [I [Hh Hf]]]]]]].
  { unfold roundsLeft. simpl. unfold valuesOf in Hr. simpl in Hr.
    rewrite length_app in Hr. unfold valuesOf. lia. }
  simpl in Hh.
  assert (Hs : script' = []).
  { destruct Hf as [[En _]|[_ [_ Hs]]]; [|exact Hs].
    destruct script' as [|r' script']; [reflexivity|exfalso].
    destruct (inv_ended _ _ _ _ I En) as [T _].
    rewrite (inv_page _ _ _ _ I) in T.
    rewrite Hh, map_app in Chain. simpl in Chain.
    rewrite Forall_forall in Chain.
    specialize (Chain _ (removelast_middle _ _ _ _ _)).
    unfold hasToken in Chain. rewrite T in Chain. discriminate. }
  subst script'. exists s, prev, cur.
  split; [exact E|]. split; [exact I|]. split; [exact Hh|].
  pose proof (inv_page _ _ _ _ I) as Pg.
  destruct Hf as [[En [F Al]]|[En [F _]]].
  - destruct (inv_ended _ _ _ _ I En) as [T [Ix _]].
    rewrite Pg in T. unfold hasToken, callOf. rewrite T. auto.
  - destruct (inv_flight _ _ _ _ I)
      as [[F' _]|[t [Ft [_ [T [_ [Ix [_ Al]]]]]]]];
      [congruence|].
    rewrite Pg in T. unfold hasToken, callOf. rewrite T. auto.
Qed.

(** C2.  Take any first page and any script of further pages in which every
    page but the last carries a continuation token (a non-empty string),
    and any way the consumer answers the pushes.  Read to the end, the
    stream has pushed the values of all the pages, each once, page after
    page and in the order of each page, followed by one [null] if the last
    page carries no token and by nothing if it does; and it has called
    [fetchPage] exactly once for each page that carries a token, in order,
    with the transaction id and that token. *)
Theorem stream_emits_every_value_once_in_order :
  forall txnId executeResult script rounds depth,
    let pages := FirstPage executeResult :: map fetchedPage script in
    Forall (fun p => hasToken p = true) (removelast pages) ->
    (2 <= depth)%nat ->
    (List.length (valuesOf pages) + 2 * List.length script + 1 <= rounds)%nat ->
    exists s,
      consume rounds depth script (newResultStream txnId executeResult)
      = Some s /\
      pushed s
      = loaded (valuesOf pages)
        ++ endSignal (negb (hasToken (last pages (FirstPage executeResult))))
      /\
      fetchCalls s = flat_map (callOf txnId) pages /\
      readableEnded s
      = negb (hasToken (last pages (FirstPage executeResult))).
Proof.
  intros txnId r script rounds depth pages Chain Hd Hr.
  destruct (consume_full txnId r script rounds depth Chain Hd Hr)
    as [s [prev [cur [E [I [Hh [Al [Ix [En F]]]]]]]]].
  assert (Hp : pages = map fetchedPage prev ++ [fetchedPage cur]).
  { unfold pages.
    change (FirstPage r :: map fetchedPage script)
      with (map fetchedPage (firstResult r :: script)).
    now rewrite Hh, map_app. }
  assert (Hl : last pages (FirstPage r) = fetchedPage cur).
  { rewrite Hp. apply last_last. }
  exists s. split; [exact E|]. rewrite Hl, <- En. split; [|split].
  - rewrite (inv_pushed _ _ _ _ I), Ix, firstn_all, (inv_page _ _ _ _ I), Hp.
    now rewrite valuesOf_snoc.
  - rewrite (inv_calls _ _ _ _ I Al), F, Hp, flat_map_app. simpl.
    now rewrite app_nil_r.
  - reflexivity.
Qed.

(** C5.  With the same pages, the last of which carries no token, the
    stream read to its end holds as read-IO total and as processing-time
    total the sums of what the execute result and every fetched page
    reported, a missing report counting for nothing; a total is unset
    exactly when no result reported anything. *)
Theorem stream_totals_are_sums :
  forall txnId executeResult script rounds depth,
    let results := firstResult executeResult :: script in
    Forall (fun p => hasToken p = true)
           (removelast (map fetchedPage results)) ->
    hasToken (last (map fetchedPage results) (FirstPage executeResult))
    = false ->
    (2 <= depth)%nat ->
    (List.length (valuesOf (map fetchedPage results))
     + 2 * List.length script + 1 <= rounds)%nat ->
    exists s,
      consume rounds depth script (newResultStream txnId executeResult)
      = Some s /\
      readableEnded s = true /\
      getConsumedIOs s = ioTotal (map fetchedConsumedIOs results) /\
      getTimingInformation s
      = timingTotal (map fetchedTimingInformation results) /\
      match getConsumedIOs s with Some u => getReadIOs u | None => 0 end
      = sumReadIOs (map fetchedConsumedIOs results) /\
      match getTimingInformation s with
      | Some u => getProcessingTimeMilliseconds u
      | None => 0
      end
      = sumProcessingTime (map fetchedTimingInformation results) /\
      (getConsumedIOs s = None <->
       Forall (fun c => c = None) (map fetchedConsumedIOs results)) /\
      (getTimingInformation s = None <->
       Forall (fun c => c = None) (map fetchedTimingInformation results)).
Proof.
  intros txnId r script rounds depth results Chain Last Hd Hr.
  destruct (consume_full txnId r script rounds depth Chain Hd Hr)
    as [s [prev [cur [E [I [Hh [Al [Ix [En F]]]]]]]]].
  fold results in Hh.
  assert (Hl : last (map fetchedPage results) (FirstPage r) = fetchedPage cur).
  { rewrite Hh, map_app. apply last_last. }
  rewrite Hl in Last. rewrite Last in En.
  exists s. split; [exact E|]. split; [exact En|].
  unfold getConsumedIOs, getTimingInformation.
  rewrite (inv_io _ _ _ _ I), (inv_timing _ _ _ _ I), <- Hh.
  split; [reflexivity|]. split; [reflexivity|].
  unfold ioTotal, timingTotal.
  split; [|split; [|split]].
  - destruct (anyReport (map fetchedConsumedIOs results)) eqn:A;
      [reflexivity|]. now rewrite sumReadIOs_none.
  - destruct (anyReport (map fetchedTimingInformation results)) eqn:A;
      [reflexivity|]. now rewrite sumProcessingTime_none.
  - apply anyReport_None.
  - apply anyReport_None.
Qed.

(** A destroyed stream with no call out is at rest for good. *)
Lemma run_destroyed : forall depth later s,
  isDestroyed s = true -> inFlight s = [] ->
  run depth later s = Some s.
Proof.
  intros depth later s D F. induction later as [|ev later IH]; simpl;
    [reflexivity|].
  destruct ev as [|r|e]; simpl; rewrite ?D, ?orb_true_r, ?F; exact IH.
Qed.

(** X2.  When the [fetchPage] call in flight fails, the stream is destroyed
    with that error and the push cycle is over: nothing more is pushed, no
    call is made or left in flight, and no later event changes the stream. *)
Theorem stream_stops_after_fetch_failure :
  forall txnId executeResult depth evs e later,
    (2 <= depth)%nat ->
    exists s,
      run depth evs (newResultStream txnId executeResult) = Some s /\
      (inFlight s <> [] ->
       exists s',
         step depth (FetchFailed e) s = Some s' /\
         destroyed s' = Some e /\
         pushed s' = pushed s /\
         fetchCalls s' = fetchCalls s /\
         inFlight s' = [] /\
         _isPushingData s' = false /\
         run depth later s' = Some s').
Proof.
  intros txnId r depth evs e later Hd.
  destruct (run_Inv depth txnId evs [] (firstResult r)
              (newResultStream txnId r) (newResultStream_Inv txnId r) Hd)
    as [s [prev [cur [E I]]]].
  exists s. split; [exact E|]. intros Fl.
  destruct (inv_flight _ _ _ _ I) as [[F _]|[t [F _]]]; [congruence|].
  eexists. simpl. rewrite F. split; [reflexivity|].
  unfold fetchPage_rejected, destroy.
  assert (R : forall s0 : ResultStream,
            isDestroyed s0 = true -> inFlight s0 = [] ->
            run depth later s0 = Some s0)
    by (intros; now apply run_destroyed).
  open_stream s. repeat split. apply R; reflexivity.
Qed.

(* --------------------------------------------------------------------- *)
(** *** More on the stream: any order of events *)

Lemma callOf_length : forall txnId prev,
  Forall (fun r => hasToken (fetchedPage r) = true) prev ->
  List.length (flat_map (callOf txnId) (map fetchedPage prev))
  = List.length prev.
Proof.
  intros txnId prev F. induction F as [|r prev H F IH]; simpl;
    [reflexivity|].
  rewrite length_app, IH. unfold callOf, hasToken in *.
  destruct (nextToken (fetchedPage r)); [reflexivity|discriminate].
Qed.

(** On a stream that was not destroyed, the count follows from the
    invariant. *)
Lemma Inv_Counted : forall txnId prev cur s,
  Inv txnId prev cur s -> destroyed s = None -> Counted prev s.
Proof.
  intros txnId prev cur s I Al. unfold Counted, isDestroyed.
  rewrite Al, (inv_calls _ _ _ _ I Al), length_app.
  rewrite (callOf_length _ _ (inv_prev _ _ _ _ I)). lia.
Qed.

(** One event, with the results received kept track of. *)
Lemma step_history : forall depth txnId prev cur s ev,
  Inv txnId prev cur s ->
  Counted prev s ->
  (2 <= depth)%nat ->
  exists s',
    step depth ev s = Some s' /\
    match served ev s with
    | Some r => Inv txnId (prev ++ [cur]) r s' /\ Counted (prev ++ [cur]) s'
    | None => Inv txnId prev cur s' /\ Counted prev s'
    end.
Proof.
  intros depth txnId prev cur s ev I J Hd.
  destruct ev as [|r|e]; unfold served.
  - (* a read request *)
    unfold step.
    destruct (readableEnded s) eqn:En; simpl; [exists s; auto|].
    unfold isDestroyed. destruct (destroyed s) eqn:Al; [exists s; auto|].
    destruct (_isPushingData s) eqn:P.
    + exists s. split; [|auto].
      destruct depth; [lia|]. simpl. now rewrite P.
    + destruct (read_rests depth txnId prev cur s I Hd P En Al)
        as [s' [E [I' [Rd _]]]].
      exists s'. split; [exact E|]. split; [exact I'|].
      apply (Inv_Counted _ _ _ _ I'). congruence.
  - (* the call in flight is answered *)
    destruct (inFlight s) as [|c flying] eqn:Fl.
    + exists s. simpl. rewrite Fl. auto.
    + destruct (fulfilled_rests depth txnId prev cur s r I) as [s' [E [I' R]]];
        [lia|rewrite Fl; discriminate|].
      exists s'. split; [exact E|]. split; [exact I'|].
      apply (Inv_Counted _ _ _ _ I').
      destruct R as [Rd _]. rewrite Rd.
      destruct (inv_flight _ _ _ _ I)
        as [[F' _]|[t [_ [_ [_ [_ [_ [_ Al]]]]]]]]; [congruence|].
      now destruct s.
  - (* the call in flight fails *)
    destruct (inFlight s) as [|c flying] eqn:Fl.
    + exists s. simpl. rewrite Fl. auto.
    + destruct I as [Itxn Ipage Iidx Idrained Ipushed Iended Iprev Icalls
                     Iflight Iio Itiming].
      destruct Iflight as [[Fl' _]|[t [Ft [P [T [Sh [Ix [En Al]]]]]]]];
        [congruence|].
      assert (flying = []) by (rewrite Ft in Fl; now injection Fl).
      subst flying.
      eexists. simpl. rewrite Fl. split; [reflexivity|].
      unfold Counted, isDestroyed in J. rewrite Al, Fl in J.
      unfold fetchPage_rejected, destroy, readableEnded, Counted,
        isDestroyed in *.
      open_stream s. subst. split.
      * constructor; simpl; auto. discriminate.
      * simpl in *. lia.
Qed.

(** Any run of events, with the results received kept track of. *)
Lemma run_history : forall depth txnId evs prev cur s,
  Inv txnId prev cur s ->
  Counted prev s ->
  (2 <= depth)%nat ->
  exists s' prev' cur',
    run depth evs s = Some s' /\
    Inv txnId prev' cur' s' /\
    Counted prev' s' /\
    prev' ++ [cur'] = (prev ++ [cur]) ++ delivered depth evs s.
Proof.
  intros depth txnId evs.
  induction evs as [|ev evs IH]; intros prev cur s I J Hd.
  - exists s, prev, cur. simpl. rewrite app_nil_r. auto.
  - destruct (step_history depth txnId prev cur s ev I J Hd) as [s1 [E H]].
    simpl. rewrite E. destruct (served ev s) as [r|].
    + destruct H as [I1 J1].
      destruct (IH (prev ++ [cur]) r s1 I1 J1 Hd)
        as [s' [prev' [cur' [E' [I' [J' Hh]]]]]].
      exists s', prev', cur'.
      split; [exact E'|]. split; [exact I'|]. split; [exact J'|].
      rewrite Hh, <- !app_assoc. reflexivity.
    + destruct H as [I1 J1].
      destruct (IH prev cur s1 I1 J1 Hd)
        as [s' [prev' [cur' [E' [I' [J' Hh]]]]]].
      exists s', prev', cur'. auto.
Qed.

Lemma newResultStream_Counted : forall txnId executeResult,
  Counted [] (newResultStream txnId executeResult).
Proof. intros txnId r. reflexivity. Qed.

(** What any run of events on a new stream comes to. *)
Lemma run_new : forall depth txnId executeResult evs,
  (2 <= depth)%nat ->
  exists s prev cur,
    run depth evs (newResultStream txnId executeResult) = Some s /\
    Inv txnId prev cur s /\
    Counted prev s /\
    prev ++ [cur]
    = firstResult executeResult
      :: delivered depth evs (newResultStream txnId executeResult).
Proof.
  intros depth txnId r evs Hd.
  destruct (run_history depth txnId evs [] (firstResult r)
              (newResultStream txnId r) (newResultStream_Inv txnId r)
              (newResultStream_Counted txnId r) Hd)
    as [s [prev [cur [E [I [J Hh]]]]]].
  exists s, prev, cur. auto.
Qed.

(** X11.  Whatever the order of read requests, page answers and failures,
    and however the consumer answers the pushes, the chunks pushed so far
    are a beginning of the values of the first page and of the pages
    delivered, in the order of the pages and of each page, with no value
    left out or pushed twice; the end of data is pushed only after all of
    them, only when the last page delivered carries no token, and only
    once. *)
Theorem stream_pushes_a_prefix_in_order :
  forall txnId executeResult depth evs,
    (2 <= depth)%nat ->
    exists s n,
      run depth evs (newResultStream txnId executeResult) = Some s /\
      let pages :=
        FirstPage executeResult
        :: map fetchedPage
             (delivered depth evs (newResultStream txnId executeResult)) in
      pushed s
      = loaded (firstn n (valuesOf pages)) ++ endSignal (readableEnded s) /\
      (readableEnded s = true ->
       n = List.length (valuesOf pages) /\
       hasToken (last pages (FirstPage executeResult)) = false).
Proof.
  intros txnId r depth evs Hd.
  destruct (run_new depth txnId r evs Hd) as [s [prev [cur [E [I [_ Hh]]]]]].
  exists s,
    (List.length (valuesOf (map fetchedPage prev)) + _retrieveIndex s)%nat.
  split; [exact E|].
  assert (Hp : FirstPage r
               :: map fetchedPage
                    (delivered depth evs (newResultStream txnId r))
               = map fetchedPage prev ++ [fetchedPage cur]).
  { change (FirstPage r :: map fetchedPage ?l)
      with (map fetchedPage (firstResult r :: l)).
    now rewrite <- Hh, map_app. }
  cbv zeta. rewrite Hp, valuesOf_snoc, firstn_app_2.
  rewrite <- (inv_page _ _ _ _ I). split.
  - apply (inv_pushed _ _ _ _ I).
  - intros En. destruct (inv_ended _ _ _ _ I En) as [T [Ix _]].
    rewrite last_last, length_app, Ix. split; [reflexivity|].
    unfold hasToken. now rewrite T.
Qed.

(** X12.  Whatever the order of events, the [fetchPage] calls made so far
    are as many as the pages delivered, plus the call in flight if there is
    one, plus the call that failed if one did: never more than one beyond
    the pages delivered. *)
Theorem stream_is_never_more_than_one_page_ahead :
  forall txnId executeResult depth evs,
    (2 <= depth)%nat ->
    exists s,
      run depth evs (newResultStream txnId executeResult) = Some s /\
      List.length (fetchCalls s)
      = (List.length
           (delivered depth evs (newResultStream txnId executeResult))
         + List.length (inFlight s)
         + (if isDestroyed s then 1 else 0))%nat /\
      (List.length (fetchCalls s)
       <= List.length
            (delivered depth evs (newResultStream txnId executeResult))
          + 1)%nat.
Proof.
  intros txnId r depth evs Hd.
  destruct (run_new depth txnId r evs Hd) as [s [prev [cur [E [I [J Hh]]]]]].
  exists s. split; [exact E|].
  assert (L : List.length prev
              = List.length (delivered depth evs (newResultStream txnId r))).
  { apply (f_equal (@List.length _)) in Hh.
    rewrite length_app in Hh. simpl in Hh. lia. }
  unfold Counted in J. rewrite L in J. split; [exact J|].
  rewrite J. unfold isDestroyed.
  destruct (inv_flight _ _ _ _ I) as [[F _]|[t [F [_ [_ [_ [_ [_ Al]]]]]]]];
    rewrite F; simpl.
  - destruct (destroyed s); lia.
  - rewrite Al. lia.
Qed.

(** After the end of data, with no call out, nothing changes any more. *)
Lemma run_ended : forall depth later s,
  readableEnded s = true -> inFlight s = [] ->
  run depth later s = Some s.
Proof.
  intros depth later s En F. induction later as [|ev later IH]; simpl;
    [reflexivity|].
  destruct ev as [|r|e]; simpl; rewrite ?En, ?F; exact IH.
Qed.

(** X13.  Once the end of data was pushed the stream is at rest for good:
    no call is in flight, the push cycle is over, and no later read
    request or answer pushes anything or makes a call. *)
Theorem stream_is_at_rest_after_the_end :
  forall txnId executeResult depth evs later,
    (2 <= depth)%nat ->
    exists s,
      run depth evs (newResultStream txnId executeResult) = Some s /\
      (readableEnded s = true ->
       inFlight s = [] /\ _isPushingData s = false /\
       run depth later s = Some s).
Proof.
  intros txnId r depth evs later Hd.
  destruct (run_new depth txnId r evs Hd) as [s [prev [cur [E [I _]]]]].
  exists s. split; [exact E|]. intros En.
  destruct (inv_flight _ _ _ _ I) as [[F P]|[t [_ [_ [_ [_ [_ [En' _]]]]]]]];
    [|congruence].
  split; [exact F|]. split; [exact P|]. now apply run_ended.
Qed.

(* --------------------------------------------------------------------- *)
(** *** More on the stream: a consumer that never refuses *)

Lemma never_refused : forall s,
  (forall n, push_returns n = true) -> refused s = false.
Proof.
  intros s H. unfold refused. destruct (rev (pushed s)) as [|[v|] before];
    [reflexivity| |reflexivity].
  now rewrite H.
Qed.

(** With such a consumer a push cycle ends at the end of data when the
    page carries no token, and with the call for the next page when it
    does. *)
Lemma rested_accepting : forall txnId prev cur (s0 s : ResultStream),
  (forall n, push_returns n = true) ->
  Inv txnId prev cur s ->
  Rested s0 s ->
  if hasToken (fetchedPage cur)
  then readableEnded s = false /\ inFlight s <> []
  else readableEnded s = true /\ inFlight s = [].
Proof.
  intros txnId prev cur s0 s H I [_ [_ R]].
  pose proof (never_refused s H) as Nr.
  pose proof (inv_page _ _ _ _ I) as Pg. unfold hasToken. rewrite <- Pg.
  destruct R as [R|[R|R]].
  - destruct R as [_ [_ [_ [_ [_ [Rf _]]]]]]. congruence.
  - destruct R as [F [_ [En _]]].
    destruct (inv_ended _ _ _ _ I En) as [T _]. rewrite T. auto.
  - destruct R as [F [_ [En _]]].
    destruct (inv_flight _ _ _ _ I) as [[F' _]|[t [_ [_ [T _]]]]];
      [congruence|].
    rewrite T. auto.
Qed.

Lemma last_cons_default : forall (A : Type) (l : list A) (a d : A),
  last (a :: l) d = last l a.
Proof.
  intros A l. induction l as [|b l IH]; intros a d; [reflexivity|].
  change (last (a :: b :: l) d) with (last (b :: l) d).
  now rewrite !IH.
Qed.

(** The answers of the script, one after the other, carry the stream to the
    end of data without any further read request. *)
Lemma resumes_by_itself : forall depth txnId script prev cur s,
  (forall n, push_returns n = true) ->
  (2 <= depth)%nat ->
  Inv txnId prev cur s ->
  destroyed s = None ->
  Forall (fun p => hasToken p = true)
         (removelast (map fetchedPage (cur :: script))) ->
  hasToken (last (map fetchedPage script) (fetchedPage cur)) = false ->
  (if hasToken (fetchedPage cur)
   then readableEnded s = false /\ inFlight s <> []
   else readableEnded s = true /\ inFlight s = []) ->
  exists s' prev' cur',
    run depth (map PageFetched script) s = Some s' /\
    Inv txnId prev' cur' s' /\
    prev' ++ [cur'] = prev ++ cur :: script /\
    readableEnded s' = true /\ inFlight s' = [] /\ destroyed s' = None /\
    delivered depth (map PageFetched script) s = script.
Proof.
  intros depth txnId script.
  induction script as [|r script IH]; intros prev cur s H Hd I Al Chain Last St.
  - simpl in Last. rewrite Last in St. destruct St as [En F].
    exists s, prev, cur. simpl. auto 8.
  - assert (Tk : hasToken (fetchedPage cur) = true).
    { simpl in Chain. inversion Chain. assumption. }
    rewrite Tk in St. destruct St as [En F].
    destruct (fulfilled_rests depth txnId prev cur s r I) as [s1 [E [I1 R]]];
      [lia|exact F|].
    pose proof (rested_accepting _ _ _ _ _ H I1 R) as St1.
    assert (Al1 : destroyed s1 = None).
    { destruct R as [D _]. rewrite D, <- Al. now destruct s. }
    destruct (IH (prev ++ [cur]) r s1 H Hd I1 Al1) as
      [s' [prev' [cur' [E' [I' [Hh [En' [F' [Al' Dl]]]]]]]]].
    + simpl in Chain. inversion Chain. assumption.
    + change (map fetchedPage (r :: script))
        with (fetchedPage r :: map fetchedPage script) in Last.
      now rewrite last_cons_default in Last.
    + exact St1.
    + exists s', prev', cur'.
      change (map PageFetched (r :: script))
        with (PageFetched r :: map PageFetched script).
      cbn [run delivered]. rewrite E. unfold served.
      destruct (inFlight s) as [|c fl]; [congruence|].
      rewrite E', Dl, Hh, <- app_assoc. auto 8.
Qed.

(** X14.  With a consumer that never refuses a push, one read request is
    enough: the stream asks for each next page by itself as soon as the
    page before is pushed out, and, the pages being answered, pushes every
    value of every page in order and then the end of data, with one call
    for each page that carries a token. *)
Theorem one_read_request_drains_an_accepting_stream :
  forall txnId executeResult script depth,
    let pages := FirstPage executeResult :: map fetchedPage script in
    (forall n, push_returns n = true) ->
    Forall (fun p => hasToken p = true) (removelast pages) ->
    hasToken (last pages (FirstPage executeResult)) = false ->
    (2 <= depth)%nat ->
    exists s,
      run depth (ReadRequest :: map PageFetched script)
        (newResultStream txnId executeResult)
      = Some s /\
      pushed s = loaded (valuesOf pages) ++ [None] /\
      fetchCalls s = flat_map (callOf txnId) pages /\
      inFlight s = [] /\ _isPushingData s = false.
Proof.
  intros txnId r script depth pages H Chain Last Hd.
  pose proof (newResultStream_Inv txnId r) as I0.
  destruct (read_rests depth txnId [] (firstResult r)
              (newResultStream txnId r) I0 Hd eq_refl eq_refl eq_refl)
    as [s1 [E1 [I1 R1]]].
  pose proof (rested_accepting _ _ _ _ _ H I1 R1) as St1.
  assert (Last' : hasToken (last (map fetchedPage script)
                              (fetchedPage (firstResult r))) = false).
  { unfold pages in Last. now rewrite last_cons_default in Last. }
  assert (Al1 : destroyed s1 = None).
  { destruct R1 as [D _]. now rewrite D. }
  destruct (resumes_by_itself depth txnId script [] (firstResult r) s1
              H Hd I1 Al1 Chain Last' St1)
    as [s [prev [cur [E [I [Hh [En [F [Al _]]]]]]]]].
  exists s. split.
  { cbn [run step]. cbn. rewrite E1. exact E. }
  assert (Hp : pages = map fetchedPage prev ++ [fetchedPage cur]).
  { unfold pages.
    change (FirstPage r :: map fetchedPage script)
      with (map fetchedPage ([] ++ firstResult r :: script)).
    now rewrite <- Hh, map_app. }
  destruct (inv_ended _ _ _ _ I En) as [T [Ix _]].
  destruct (inv_flight _ _ _ _ I) as [[_ P]|[t [F' _]]]; [|congruence].
  split; [|split; [|split; [exact F|exact P]]].
  - rewrite (inv_pushed _ _ _ _ I), En, Ix, firstn_all, Hp, valuesOf_snoc.
    now rewrite (inv_page _ _ _ _ I).
  - rewrite (inv_calls _ _ _ _ I Al), F, Hp, flat_map_app, app_nil_r. simpl.
    unfold callOf. rewrite <- (inv_page _ _ _ _ I), T.
    now rewrite app_nil_r.
Qed.

End Stream.

(* ===================================================================== *)
(** ** Properties of the driver *)
(* ===================================================================== *)

Lemma num_succ_pred : forall a, num_succ (num_pred a) = a.
Proof. intros [z|]; simpl; [f_equal; lia | reflexivity]. Qed.

Lemma array_pop_nil : forall A : Type, @array_pop A [] = (None, []).
Proof. reflexivity. Qed.

Lemma array_pop_push : forall (A : Type) (l : list A) (x : A),
  array_pop (array_push l x) = (Some x, l).
Proof.
  intros A l x. unfold array_pop, array_push.
  rewrite rev_app_distr. simpl. now rewrite rev_involutive.
Qed.

(** What [array_pop] hands out was in the array, and what it leaves was. *)
Lemma array_pop_In : forall (A : Type) (l : list A) x rest,
  array_pop l = (Some x, rest) ->
  In x l /\ (forall y, In y rest -> In y l).
Proof.
  intros A l x rest. unfold array_pop.
  destruct (rev l) as [|y r] eqn:E; [discriminate|].
  intros H. injection H as Hx Hr. subst y rest.
  assert (L : l = rev r ++ [x]).
  { rewrite <- (rev_involutive l), E. reflexivity. }
  rewrite L. split.
  - apply in_or_app. right. now left.
  - intros z Hz. apply in_or_app. now left.
Qed.

Lemma array_pop_None : forall (A : Type) (l : list A) rest,
  array_pop l = (None, rest) -> l = [] /\ rest = [].
Proof.
  intros A l rest. unfold array_pop.
  destruct (rev l) as [|y r] eqn:E; [|discriminate].
  intros H. injection H as <-. split; [|reflexivity].
  rewrite <- (rev_involutive l), E. reflexivity.
Qed.

(** The closed flag is never reset. *)
Lemma getSession_closed : forall created d,
  _isClosed d = true -> getSession created d = (inl DriverClosedError, d).
Proof. intros c d H. unfold getSession, _throwIfClosed. now rewrite H. Qed.

Lemma getSession_isClosed : forall created d,
  _isClosed (snd (getSession created d)) = _isClosed d.
Proof.
  intros c d. unfold getSession, _createSession, _throwIfClosed, tryAcquire.
  destruct (_isClosed d) eqn:C; [simpl; exact C|].
  destruct (num_gt (permits (_semaphore d)) (Num 0)); [|simpl; exact C].
  simpl. destruct (array_pop (_sessionPool d)) as [[s|] pool]; simpl.
  - exact C.
  - rewrite C. destruct c; simpl; exact C.
Qed.

Lemma run_op_isClosed : forall o d,
  _isClosed d = true -> _isClosed (snd (run_op o d)) = true.
Proof.
  intros [c|s|] d H; simpl.
  - pose proof (getSession_isClosed c d) as G.
    destruct (getSession c d) as [[e|s] d']; simpl in *; congruence.
  - unfold _returnSessionToPool. destruct (isSessionOpen s); simpl; exact H.
  - reflexivity.
Qed.

Lemma run_ops_isClosed : forall ops d,
  _isClosed d = true -> _isClosed (snd (run_ops ops d)) = true.
Proof.
  induction ops as [|o ops IH]; intros d H; simpl; [exact H|].
  pose proof (run_op_isClosed o d H) as H1.
  destruct (run_op o d) as [h d1]. simpl in H1.
  specialize (IH d1 H1). destruct (run_ops ops d1) as [hs d2]. exact IH.
Qed.

(** The timeout field is written by no method. *)
Lemma getSession_timeoutMillis : forall created d,
  _timeoutMillis (snd (getSession created d)) = _timeoutMillis d.
Proof.
  intros c d. unfold getSession, _createSession, _throwIfClosed, tryAcquire.
  destruct (_isClosed d) eqn:C; [reflexivity|].
  destruct (num_gt (permits (_semaphore d)) (Num 0)); [|reflexivity].
  simpl. destruct (array_pop (_sessionPool d)) as [[s|] pool]; simpl.
  - reflexivity.
  - rewrite C. destruct c; reflexivity.
Qed.

Lemma run_ops_timeoutMillis : forall ops d,
  _timeoutMillis (snd (run_ops ops d)) = _timeoutMillis d.
Proof.
  induction ops as [|o ops IH]; intros d; simpl; [reflexivity|].
  assert (H1 : _timeoutMillis (snd (run_op o d)) = _timeoutMillis d).
  { destruct o as [c|s|]; simpl.
    - pose proof (getSession_timeoutMillis c d) as G.
      destruct (getSession c d) as [[e|s] d']; exact G.
    - unfold _returnSessionToPool. destruct (isSessionOpen s); reflexivity.
    - reflexivity. }
  destruct (run_op o d) as [h d1]. simpl in H1.
  specialize (IH d1). destruct (run_ops ops d1) as [hs d2]. simpl in *.
  congruence.
Qed.

Lemma constructor_timeoutMillis : forall version ga ledger opts mct policy d,
  constructor version ga ledger opts mct policy = inr d ->
  _timeoutMillis d = None.
Proof.
  intros version ga ledger opts mct policy d. unfold constructor.
  destruct (num_lt mct (Num 0)); [discriminate|].
  match goal with |- context [if ?c then _ else _] => destruct c end;
    [discriminate|].
  intros H. injection H as <-. reflexivity.
Qed.

Lemma getSession_no_permit : forall created d,
  _isClosed d = false ->
  num_gt (permits (_semaphore d)) (Num 0) = false ->
  getSession created d = (inl (SessionPoolEmptyError (_timeoutMillis d)), d).
Proof.
  intros c d C P. unfold getSession, _throwIfClosed, tryAcquire.
  now rewrite C, P.
Qed.

(** C10.  The constructor refuses any pool limit that, once 0 is replaced by
    the agent's [maxSockets], exceeds the [maxSockets] of the configured
    agent (of [globalAgent] when none is configured): it raises a
    [RangeError]; a limit that passed the sign check gets the message that
    names both values.  A driver is built only with a limit within it. *)
Theorem constructor_rejects_limit_above_maxSockets :
  forall version globalAgent ledgerName opts mct policy,
    let sockets := clientMaxSockets opts globalAgent in
    (num_gt (effectiveLimit mct sockets) sockets = true ->
     (exists msg,
        constructor version globalAgent ledgerName opts mct policy
        = inl (RangeError msg)) /\
     (num_lt mct (Num 0) = false ->
      constructor version globalAgent ledgerName opts mct policy
      = inl (RangeError
               (PoolLimitExceedsClient (effectiveLimit mct sockets) sockets))))
    /\
    (forall d,
       constructor version globalAgent ledgerName opts mct policy = inr d ->
       _maxConcurrentTransactions d = effectiveLimit mct sockets /\
       num_gt (_maxConcurrentTransactions d) sockets = false).
Proof.
  intros version ga ledger opts mct policy sockets.
  unfold constructor.
  change (clientMaxSockets
            (mkClientConfiguration (httpOptions opts)
               (Some ("QLDB Driver for Node.js v" ++ version)%string)
               (Some 0)) ga) with sockets.
  split.
  - intros Hgt. split.
    + destruct (num_lt mct (Num 0)); [eauto|]. rewrite Hgt. eauto.
    + intros Hneg. rewrite Hneg, Hgt. reflexivity.
  - intros d. destruct (num_lt mct (Num 0)); [discriminate|].
    destruct (num_gt (effectiveLimit mct sockets) sockets) eqn:G;
      [discriminate|].
    intros H. injection H as <-. simpl. auto.
Qed.

Lemma constructor_rejects_limit_above_maxSockets_witness :
  num_gt (effectiveLimit (Num 5) (clientMaxSockets (agentOptions (Num 3))
                                    (mkAgent Infinity)))
         (clientMaxSockets (agentOptions (Num 3)) (mkAgent Infinity)) = true
  /\ constructor "2.0" (mkAgent Infinity) "ledger" (agentOptions (Num 3))
       (Num 5) defaultRetryPolicy
     = inl (RangeError (PoolLimitExceedsClient (Num 5) (Num 3))).
Proof.
  split; [reflexivity|].
  apply (proj1 (constructor_rejects_limit_above_maxSockets
                  "2.0" (mkAgent Infinity) "ledger" (agentOptions (Num 3))
                  (Num 5) defaultRetryPolicy));
    reflexivity.
Defined.

(** C4.  [getSession] fails with [DriverClosedError] on a closed driver and
    leaves it as it was; on an open driver with no permit it fails at once
    with [SessionPoolEmptyError] and changes nothing; with a permit it takes
    one from the semaphore and from [_availablePermits] and hands out the
    last idle session, or a new one when the pool is empty; and when the
    creation fails, the error comes out with both counts back at their
    values before the call. *)
Theorem getSession_cases : forall created d,
  (_isClosed d = true ->
   getSession created d = (inl DriverClosedError, d)) /\
  (_isClosed d = false ->
   num_gt (permits (_semaphore d)) (Num 0) = false ->
   getSession created d
   = (inl (SessionPoolEmptyError (_timeoutMillis d)), d)) /\
  (_isClosed d = false ->
   num_gt (permits (_semaphore d)) (Num 0) = true ->
   let taken :=
     set_availablePermits (num_pred (_availablePermits d))
       (set_semaphore (mkSemaphore (num_pred (permits (_semaphore d)))) d) in
   (forall pool s, _sessionPool d = array_push pool s ->
      getSession created d = (inr s, set_sessionPool pool taken)) /\
   (forall s, _sessionPool d = [] -> created = inr s ->
      getSession created d = (inr s, taken)) /\
   (forall e, _sessionPool d = [] -> created = inl e ->
      getSession created d = (inl e, d) /\
      _availablePermits (snd (getSession created d)) = _availablePermits d /\
      permits (_semaphore (snd (getSession created d)))
      = permits (_semaphore d))).
Proof.
  intros c d. split; [apply getSession_closed|]. split.
  - apply getSession_no_permit.
  - intros C P taken.
    assert (G : getSession c d =
      let (session, pool) := array_pop (_sessionPool d) in
      match session with
      | Some s => (inr s, set_sessionPool pool taken)
      | None =>
        match c with
        | inr s => (inr s, set_sessionPool pool taken)
        | inl e =>
          (inl e,
           set_availablePermits
             (num_succ (num_pred (_availablePermits d)))
             (set_semaphore
                (mkSemaphore (num_succ (num_pred (permits (_semaphore d)))))
                (set_sessionPool pool taken)))
        end
      end).
    { unfold getSession, _createSession, _throwIfClosed, tryAcquire.
      rewrite C, P. simpl.
      destruct (array_pop (_sessionPool d)) as [[s|] pool]; simpl;
        [reflexivity|]. rewrite C. destruct c; reflexivity. }
    split; [|split].
    + intros pool s E. rewrite G, E, array_pop_push. reflexivity.
    + intros s E ->. rewrite G, E, array_pop_nil.
      unfold set_sessionPool, taken. simpl. now rewrite <- E.
    + intros e E ->.
      assert (G' : getSession (inl e) d = (inl e, d)).
      { rewrite G, E, array_pop_nil. f_equal.
        unfold set_availablePermits, set_semaphore, set_sessionPool, taken.
        simpl. rewrite !num_succ_pred, <- E.
        destruct d as [? ? ? ? [?] ? ? ? ?]. reflexivity. }
      rewrite G'. auto.
Qed.

Lemma getSession_cases_witness :
  getSession (inr session1) (set_sessionPool [session0] driver1)
  = (inr session0,
     set_sessionPool []
       (set_availablePermits (Num 0)
          (set_semaphore (mkSemaphore (Num 0))
             (set_sessionPool [session0] driver1)))).
Proof.
  apply (proj1 (proj2 (proj2 (getSession_cases (inr session1)
           (set_sessionPool [session0] driver1))) eq_refl eq_refl)
         [] session0 eq_refl).
Defined.

(** Where a session handed out by [getSession] comes from, and what is left
    in the pool. *)
Lemma getSession_origin : forall created d r d',
  getSession created d = (r, d') ->
  (forall y, In y (_sessionPool d') -> In y (_sessionPool d)) /\
  (forall h, r = inr h -> In h (_sessionPool d) \/ created = inr h).
Proof.
  intros c d r d'.
  unfold getSession, _createSession, _throwIfClosed, tryAcquire.
  destruct (_isClosed d) eqn:C.
  { intros H. injection H as <- <-. split; [auto|discriminate]. }
  destruct (num_gt (permits (_semaphore d)) (Num 0)).
  2:{ intros H. injection H as <- <-. split; [auto|discriminate]. }
  simpl. destruct (array_pop (_sessionPool d)) as [[s|] pool] eqn:P; simpl.
  - destruct (array_pop_In _ _ _ _ P) as [Hs Hrest].
    intros H. injection H as <- <-. simpl. split; [exact Hrest|].
    intros h Hh. injection Hh as <-. now left.
  - destruct (array_pop_None _ _ _ P) as [E ->]. rewrite C.
    destruct c as [e|s]; intros H; injection H as <- <-; simpl.
    + split; [intros y []|discriminate].
    + split; [intros y []|]. intros h Hh. injection Hh as <-. now right.
Qed.

(** One operation that leaves [s] alone keeps [s] out of the pool and does
    not hand it out. *)
Lemma run_op_keeps_closed : forall s o d,
  keeps_closed s o ->
  (forall x, In x (_sessionPool d) -> sessionId x <> sessionId s) ->
  (forall x, In x (_sessionPool (snd (run_op o d))) ->
             sessionId x <> sessionId s) /\
  (forall h, fst (run_op o d) = Some h -> sessionId h <> sessionId s).
Proof.
  intros s [c|x|] d K P; simpl.
  - destruct (getSession c d) as [r d'] eqn:G.
    destruct (getSession_origin _ _ _ _ G) as [Hpool Hout].
    destruct r as [e|h]; simpl; split; auto; try discriminate.
    intros h' Hh. injection Hh as <-.
    destruct (Hout h eq_refl) as [Hin| ->]; [auto|exact K].
  - split; [|discriminate]. unfold _returnSessionToPool.
    destruct (isSessionOpen x) eqn:O; simpl; [|exact P].
    intros y Hy. unfold array_push in Hy. apply in_app_or in Hy.
    destruct Hy as [Hy|[<-|[]]]; [auto|].
    intros E. simpl in K. rewrite (K E) in O. discriminate.
  - split; [|discriminate]. intros y Hy. apply in_map_iff in Hy.
    destruct Hy as [z [<- Hz]]. simpl. auto.
Qed.

Lemma run_ops_keeps_closed : forall s ops d,
  Forall (keeps_closed s) ops ->
  (forall x, In x (_sessionPool d) -> sessionId x <> sessionId s) ->
  forall h, In h (fst (run_ops ops d)) -> sessionId h <> sessionId s.
Proof.
  intros s ops.
  induction ops as [|o ops IH]; intros d F P h; simpl; [intros []|].
  inversion F as [|? ? K F']; subst.
  destruct (run_op_keeps_closed s o d K P) as [P1 H1].
  destruct (run_op o d) as [r d1]. simpl in P1, H1.
  specialize (IH d1 F' P1 h).
  destruct (run_ops ops d1) as [hs d2]. simpl in *.
  destruct r as [x|]; simpl; [|exact IH].
  intros [<-|Hh]; [now apply H1|auto].
Qed.

(** C7.  [_returnSessionToPool] puts the session at the end of the pool when
    its open flag is true and leaves the pool alone otherwise; either way it
    releases one permit of the semaphore and raises [_availablePermits] by
    one.  A session released with its flag false (and, being borrowed, not in
    the pool) is therefore handed out by no later [getSession], whatever is
    done to the driver, as long as it stays closed and new sessions are
    new. *)
Theorem returnSessionToPool_requeues_open_only : forall s d,
  _sessionPool (_returnSessionToPool s d)
  = (if isSessionOpen s then array_push (_sessionPool d) s
     else _sessionPool d) /\
  permits (_semaphore (_returnSessionToPool s d))
  = num_succ (permits (_semaphore d)) /\
  _availablePermits (_returnSessionToPool s d)
  = num_succ (_availablePermits d) /\
  (isSessionOpen s = false ->
   (forall x, In x (_sessionPool d) -> sessionId x <> sessionId s) ->
   forall ops, Forall (keeps_closed s) ops ->
   forall h, In h (fst (run_ops ops (_returnSessionToPool s d))) ->
             sessionId h <> sessionId s).
Proof.
  intros s d. unfold _returnSessionToPool at 1 2 3.
  destruct (isSessionOpen s) eqn:O; simpl; repeat split; try discriminate.
  intros _ P ops F h. apply run_ops_keeps_closed; [exact F|].
  unfold _returnSessionToPool. rewrite O. simpl. exact P.
Qed.

Lemma returnSessionToPool_requeues_open_only_witness :
  Forall (fun h => sessionId h <> sessionId (afterRun false session0))
    (fst (run_ops [OpGetSession (inr session1); OpReturnSession session1;
                   OpGetSession (inl (OtherError "NetworkingError"))]
            (_returnSessionToPool (afterRun false session0)
               (set_availablePermits (Num 0)
                  (set_semaphore (mkSemaphore (Num 0)) driver1))))).
Proof.
  apply Forall_forall.
  apply (proj2 (proj2 (proj2 (returnSessionToPool_requeues_open_only
           (afterRun false session0)
           (set_availablePermits (Num 0)
              (set_semaphore (mkSemaphore (Num 0)) driver1)))))).
  - reflexivity.
  - intros x [].
  - repeat constructor; simpl; discriminate.
Defined.

Lemma executeLambda_closed : forall a script policy d,
  _isClosed d = true ->
  executeLambda (a :: script) policy d
  = (Some (inl DriverClosedError), (d, [])).
Proof.
  intros a script policy d C. unfold executeLambda. simpl.
  rewrite (getSession_closed _ _ C). reflexivity.
Qed.

(** C8.  [close] calls [endSession] on every idle session and sets the
    closed flag; after it, whatever else is done to the driver, every call
    of [executeLambda] fails with [DriverClosedError] before it touches the
    pool or the permits: the driver is left as it was, idle sessions
    included, and no session is borrowed. *)
Theorem executeLambda_after_close : forall d ops a script policy,
  _isClosed (close d) = true /\
  _sessionPool (close d) = map endSession (_sessionPool d) /\
  Forall (fun s => transportEnded s = true) (_sessionPool (close d)) /\
  executeLambda (a :: script) policy (snd (run_ops ops (close d)))
  = (Some (inl DriverClosedError), (snd (run_ops ops (close d)), [])).
Proof.
  intros d ops a script policy. repeat split.
  - unfold close. simpl. apply Forall_forall. intros x Hx.
    apply in_map_iff in Hx. destruct Hx as [y [<- _]]. reflexivity.
  - apply executeLambda_closed, run_ops_isClosed. reflexivity.
Qed.

(** C9, what the code does.  No method and no constructor assigns
    [_timeoutMillis]: every driver the constructor builds has it
    [undefined], so the [SessionPoolEmptyError] raised when no permit is
    left carries [undefined], not a configured number of milliseconds. *)
Theorem pool_exhausted_error_carries_undefined :
  forall version globalAgent ledgerName opts mct policy d ops created,
    constructor version globalAgent ledgerName opts mct policy = inr d ->
    _isClosed (snd (run_ops ops d)) = false ->
    num_gt (permits (_semaphore (snd (run_ops ops d)))) (Num 0) = false ->
    getSession created (snd (run_ops ops d))
    = (inl (SessionPoolEmptyError None), snd (run_ops ops d)).
Proof.
  intros version ga ledger opts mct policy d ops c K C P.
  rewrite (getSession_no_permit c _ C P), run_ops_timeoutMillis.
  now rewrite (constructor_timeoutMillis _ _ _ _ _ _ _ K).
Qed.

Lemma pool_exhausted_error_carries_undefined_witness :
  getSession (inr session1)
    (snd (run_ops [OpGetSession (inr session0)] driver1))
  = (inl (SessionPoolEmptyError None),
     snd (run_ops [OpGetSession (inr session0)] driver1)).
Proof.
  apply (pool_exhausted_error_carries_undefined "2.0" (mkAgent (Num 1))
           "ledger" plainOptions (Num 1) defaultRetryPolicy driver1
           [OpGetSession (inr session0)] (inr session1));
    reflexivity.
Defined.

(** C1, what the code does.  With one permit: the first attempt borrows a
    session that turns out invalid and closed, the loop releases it and goes
    on; no session can be created for the second attempt, and the [finally]
    block releases the session of the first attempt again.  One borrow, two
    releases, and two permits available where the capacity is one. *)
Example executeLambda_releases_stale_session :
  fst (executeLambda invalid_then_no_session None driver1)
  = Some (inl (OtherError "NetworkingError")) /\
  borrows 0 (snd (snd (executeLambda invalid_then_no_session None driver1)))
  = 1%nat /\
  releases 0 (snd (snd (executeLambda invalid_then_no_session None driver1)))
  = 2%nat /\
  _maxConcurrentTransactions
    (fst (snd (executeLambda invalid_then_no_session None driver1))) = Num 1 /\
  _availablePermits
    (fst (snd (executeLambda invalid_then_no_session None driver1))) = Num 2 /\
  permits (_semaphore
    (fst (snd (executeLambda invalid_then_no_session None driver1)))) = Num 2.
Proof. repeat split. Qed.

Lemma getSession_succeeds : forall c d,
  _isClosed d = false ->
  num_gt (permits (_semaphore d)) (Num 0) = true ->
  exists s d1,
    getSession (inr c) d = (inr s, d1) /\
    _isClosed d1 = false /\
    permits (_semaphore d1) = num_pred (permits (_semaphore d)) /\
    _availablePermits d1 = num_pred (_availablePermits d).
Proof.
  intros c d C P. unfold getSession, _createSession, _throwIfClosed, tryAcquire.
  rewrite C, P. simpl.
  destruct (array_pop (_sessionPool d)) as [[s|] pool]; simpl.
  - eauto 6.
  - rewrite C. eauto 6.
Qed.

Lemma returnSessionToPool_open_permits : forall s d,
  _isClosed (_returnSessionToPool s d) = _isClosed d /\
  permits (_semaphore (_returnSessionToPool s d))
  = num_succ (permits (_semaphore d)) /\
  _availablePermits (_returnSessionToPool s d)
  = num_succ (_availablePermits d).
Proof.
  intros s d. unfold _returnSessionToPool.
  destruct (isSessionOpen s); simpl; auto.
Qed.

(** An error of the session-validity class never ends the loop. *)
Lemma executeLambda_loop_never_surfaces : forall script policy session st e st',
  executeLambda_loop script policy session st = (Some (inl e), st') ->
  isStartTransactionError e || isInvalidSessionException e = false.
Proof.
  induction script as [|a rest IH]; intros policy session st e st'; simpl;
    [discriminate|].
  destruct (getSession (created a) (fst st)) as [[err|s] d1].
  - destruct (isStartTransactionError err || isInvalidSessionException err)
      eqn:A.
    + apply IH.
    + intros H. injection H as <- _. exact A.
  - destruct (outcome a policy) as [err|v]; [|discriminate].
    destruct (isStartTransactionError err || isInvalidSessionException err)
      eqn:A.
    + apply IH.
    + intros H. injection H as <- _. exact A.
Qed.

(** Any number of session failures in a row is absorbed. *)
Lemma executeLambda_loop_unbounded : forall fails a policy v,
  Forall (session_failure policy) fails ->
  (exists s, created a = inr s) ->
  outcome a policy = inr v ->
  forall session st,
    _isClosed (fst st) = false ->
    num_gt (permits (_semaphore (fst st))) (Num 0) = true ->
    fst (executeLambda_loop (fails ++ [a]) policy session st) = Some (inr v).
Proof.
  induction fails as [|f fails IH];
    intros a policy v F [c Hc] Hv session st C P.
  - simpl. rewrite Hc.
    destruct (getSession_succeeds c _ C P) as [s [d1 [G _]]].
    rewrite G, Hv. reflexivity.
  - inversion F as [|? ? [[c' Hc'] [Hm [e [He Ha]]]] F']; subst.
    simpl. rewrite Hc'.
    destruct (getSession_succeeds c' _ C P) as [s [d1 [G [C1 [P1 _]]]]].
    rewrite G, He, Ha, Hm. simpl.
    destruct (returnSessionToPool_open_permits (afterRun (staysOpen f) s) d1)
      as [RC [RP _]].
    apply IH; eauto; unfold finally_release, fst, snd;
      rewrite ?RC, ?RP, ?P1, ?num_succ_pred; auto.
Qed.

(** When every round gets its session, the sessions are borrowed and
    released in pairs, and the permit counts end where they began. *)
Lemma executeLambda_loop_paired : forall fails a policy,
  Forall (session_failure policy) fails ->
  final_attempt policy a ->
  forall session d log,
    _isClosed d = false ->
    num_gt (permits (_semaphore d)) (Num 0) = true ->
    exists d' seg,
      executeLambda_loop (fails ++ [a]) policy session (d, log)
      = (Some (outcome a policy), (d', log ++ seg)) /\
      paired seg /\
      permits (_semaphore d') = permits (_semaphore d) /\
      _availablePermits d' = _availablePermits d /\
      _isClosed d' = false.
Proof.
  induction fails as [|f fails IH];
    intros a policy F [[c Hc] [Hm Ho]] session d log C P.
  - simpl. rewrite Hc.
    destruct (getSession_succeeds c _ C P) as [s [d1 [G [C1 [P1 A1]]]]].
    rewrite G, Hm. simpl.
    exists (_returnSessionToPool (afterRun (staysOpen a) s) d1),
           [Borrowed s; Released (afterRun (staysOpen a) s)].
    destruct (returnSessionToPool_open_permits (afterRun (staysOpen a) s) d1)
      as [RC [RP RA]].
    rewrite RC, RP, RA, P1, A1, !num_succ_pred, <- app_assoc.
    split.
    + destruct (outcome a policy) as [e|v]; [|reflexivity].
      rewrite Ho. reflexivity.
    + split; [repeat constructor|auto].
  - inversion F as [|? ? [[c' Hc'] [Hm' [e [He Ha]]]] F']; subst.
    simpl. rewrite Hc'.
    destruct (getSession_succeeds c' _ C P) as [s [d1 [G [C1 [P1 A1]]]]].
    rewrite G, He, Ha, Hm'. simpl.
    destruct (returnSessionToPool_open_permits (afterRun (staysOpen f) s) d1)
      as [RC [RP RA]].
    destruct (IH a policy F' (conj (ex_intro _ c Hc) (conj Hm Ho))
                (Some (afterRun (staysOpen f) s))
                (_returnSessionToPool (afterRun (staysOpen f) s) d1)
                ((log ++ [Borrowed s])
                 ++ [Released (afterRun (staysOpen f) s)]))
      as [d' [seg [E [Pa [Pp [Pv Pc]]]]]].
    + now rewrite RC.
    + now rewrite RP, P1, num_succ_pred.
    + exists d', (Borrowed s :: Released (afterRun (staysOpen f) s) :: seg).
      rewrite E, Pp, Pv, RP, RA, P1, A1, !num_succ_pred, <- !app_assoc.
      split; [reflexivity|]. split; [|auto].
      constructor; [reflexivity|exact Pa].
Qed.

(** X1.  A call of [executeLambda] in which every round gets a session
    (the driver is open and has a permit, sessions can be created, no other
    task interferes), whatever the number of rounds that fail with a
    session-validity error before the one that ends the call: every session
    borrowed is released once, right after its round, and the semaphore's
    permits and [_availablePermits] end at the values they had before the
    call. *)
Theorem executeLambda_balanced_when_sessions_obtained :
  forall fails a policy d,
    Forall (session_failure policy) fails ->
    final_attempt policy a ->
    _isClosed d = false ->
    num_gt (permits (_semaphore d)) (Num 0) = true ->
    exists d' log,
      executeLambda (fails ++ [a]) (Some policy) d
      = (Some (outcome a policy), (d', log)) /\
      paired log /\
      permits (_semaphore d') = permits (_semaphore d) /\
      _availablePermits d' = _availablePermits d.
Proof.
  intros fails a policy d F Fa C P.
  destruct (executeLambda_loop_paired fails a policy F Fa None d [] C P)
    as [d' [seg [E [Pa [Pp [Pv _]]]]]].
  exists d', seg. unfold executeLambda. rewrite E. auto.
Qed.

Lemma executeLambda_balanced_when_sessions_obtained_witness :
  exists d' log,
    executeLambda
      (repeat (mkAttempt (inr session1) []
                 (fun _ => inl InvalidSessionException) false) 2
       ++ [mkAttempt (inr session0) [] (fun _ => inr "committed"%string)
             true])
      (Some defaultRetryPolicy) driver1
    = (Some (inr "committed"%string), (d', log)) /\
    paired log /\
    permits (_semaphore d') = Num 1 /\
    _availablePermits d' = Num 1.
Proof.
  apply (executeLambda_balanced_when_sessions_obtained
           (repeat (mkAttempt (inr session1) []
                      (fun _ => inl InvalidSessionException) false) 2)
           (mkAttempt (inr session0) [] (fun _ => inr "committed"%string)
              true)
           defaultRetryPolicy driver1).
  - repeat constructor; simpl; eauto.
  - repeat split; simpl; eauto.
  - reflexivity.
  - reflexivity.
Defined.

(** C3, the claim as the code has it.  When an attempt on a borrowed session
    fails with [StartTransactionError] or an invalid-session error, the loop
    hands the session to [_returnSessionToPool], which puts it back in the
    pool if it is still open and drops it otherwise, and goes round again;
    the next round takes whatever session [getSession] then gives.  Such an
    error is never the outcome of the call, and any number of such failures
    in a row is absorbed.  A failure of any other class, of the attempt or
    of [getSession], is the outcome of the call as it is. *)
Theorem executeLambda_absorbs_session_failures :
  forall a rest policy session st,
    (forall s d1 e,
       getSession (created a) (fst st) = (inr s, d1) ->
       outcome a policy = inl e ->
       isStartTransactionError e || isInvalidSessionException e = true ->
       let s' := afterRun (staysOpen a) s in
       let d2 := snd (run_ops (meanwhile a) d1) in
       executeLambda_loop (a :: rest) policy session st
       = executeLambda_loop rest policy (Some s')
           (_returnSessionToPool s' d2,
            (snd st ++ [Borrowed s]) ++ [Released s']) /\
       _sessionPool (_returnSessionToPool s' d2)
       = (if staysOpen a then array_push (_sessionPool d2) s'
          else _sessionPool d2)) /\
    (forall e st',
       executeLambda_loop (a :: rest) policy session st = (Some (inl e), st') ->
       isStartTransactionError e || isInvalidSessionException e = false) /\
    (forall fails v,
       Forall (session_failure policy) fails ->
       (exists s, created a = inr s) ->
       outcome a policy = inr v ->
       _isClosed (fst st) = false ->
       num_gt (permits (_semaphore (fst st))) (Num 0) = true ->
       fst (executeLambda_loop (fails ++ [a]) policy session st)
       = Some (inr v)) /\
    (forall s d1 e,
       getSession (created a) (fst st) = (inr s, d1) ->
       outcome a policy = inl e ->
       isStartTransactionError e || isInvalidSessionException e = false ->
       fst (executeLambda_loop (a :: rest) policy session st)
       = Some (inl e)) /\
    (forall d1 e,
       getSession (created a) (fst st) = (inl e, d1) ->
       isStartTransactionError e || isInvalidSessionException e = false ->
       fst (executeLambda_loop (a :: rest) policy session st)
       = Some (inl e)).
Proof.
  intros a rest policy session st.
  split; [|split; [|split; [|split]]].
  - intros s d1 e G He A. split.
    + simpl. rewrite G, He, A. reflexivity.
    + unfold _returnSessionToPool. simpl.
      destruct (staysOpen a); reflexivity.
  - intros e st'. apply executeLambda_loop_never_surfaces.
  - intros fails v F Hc Hv C P.
    now apply executeLambda_loop_unbounded.
  - intros s d1 e G He A. simpl. rewrite G, He, A. reflexivity.
  - intros d1 e G A. simpl. rewrite G, A. reflexivity.
Qed.

Lemma executeLambda_absorbs_session_failures_witness :
  fst (executeLambda_loop
         (repeat (mkAttempt (inr session1) []
                    (fun _ => inl StartTransactionError) false) 3
          ++ [mkAttempt (inr session0) [] (fun _ => inr "committed"%string)
                true])
         defaultRetryPolicy None (driver1, []))
  = Some (inr "committed"%string).
Proof.
  apply (proj1 (proj2 (proj2 (executeLambda_absorbs_session_failures
           (mkAttempt (inr session0) [] (fun _ => inr "committed"%string) true)
           [] defaultRetryPolicy None (driver1, []))))).
  - repeat constructor; simpl; eauto.
  - simpl. eauto.
  - reflexivity.
  - reflexivity.
  - reflexivity.
Defined.

(** C3 as stated fails: the session whose transaction could not be started
    stays open, so the loop puts it back in the pool (it is the pool's only
    entry after the first round) and the second round borrows that same
    session again; no new session is involved, none could even be made. *)
Example failed_session_is_requeued_and_reused :
  _sessionPool
    (fst (snd (executeLambda (firstn 1 start_failure_then_success) None
                 driver1)))
  = [session0] /\
  fst (executeLambda start_failure_then_success None driver1)
  = Some (inr "committed"%string) /\
  snd (snd (executeLambda start_failure_then_success None driver1))
  = [Borrowed session0; Released session0;
     Borrowed session0; Released session0].
Proof. repeat split. Qed.

(* --------------------------------------------------------------------- *)
(** *** More on the pool *)

Lemma QldbDriver_eta : forall d,
  mkDriver (_maxConcurrentTransactions d) (_timeoutMillis d)
    (_availablePermits d) (_sessionPool d) (_semaphore d) (_qldbClient d)
    (_ledgerName d) (_isClosed d) (_retryPolicy d) = d.
Proof. now intros []. Qed.

Lemma num_pred_succ : forall a, num_pred (num_succ a) = a.
Proof. intros [z|]; simpl; [f_equal; lia | reflexivity]. Qed.

(** An acquisition that fails leaves the driver as it was. *)
Lemma getSession_failure_unchanged : forall created d e d1,
  getSession created d = (inl e, d1) -> d1 = d.
Proof.
  intros c d e d1.
  unfold getSession, _createSession, _throwIfClosed, tryAcquire.
  destruct (_isClosed d) eqn:C; [intros H; now injection H|].
  destruct (num_gt (permits (_semaphore d)) (Num 0));
    [|intros H; now injection H].
  simpl. destruct (array_pop (_sessionPool d)) as [[s|] pool] eqn:P; simpl;
    [discriminate|].
  rewrite C. destruct c as [e'|s]; [|discriminate].
  intros H. injection H as _ <-.
  destruct (array_pop_None _ _ _ P) as [E ->].
  unfold set_availablePermits, set_semaphore, set_sessionPool, release.
  simpl. rewrite !num_succ_pred, <- E.
  destruct d as [? ? ? ? [?] ? ? ? ?]. reflexivity.
Qed.

(** What an acquisition that succeeds does to the counts. *)
Lemma getSession_success_counts : forall created d s d1,
  getSession created d = (inr s, d1) ->
  num_gt (permits (_semaphore d)) (Num 0) = true /\
  permits (_semaphore d1) = num_pred (permits (_semaphore d)) /\
  _availablePermits d1 = num_pred (_availablePermits d) /\
  _isClosed d1 = _isClosed d.
Proof.
  intros c d s d1.
  unfold getSession, _createSession, _throwIfClosed, tryAcquire.
  destruct (_isClosed d) eqn:C; [discriminate|].
  destruct (num_gt (permits (_semaphore d)) (Num 0)); [|discriminate].
  simpl. destruct (array_pop (_sessionPool d)) as [[s'|] pool]; simpl.
  - intros H. injection H as _ <-. simpl. auto.
  - rewrite C. destruct c as [e|s']; [discriminate|].
    intros H. injection H as _ <-. simpl. auto.
Qed.

Lemma getSession_lockstep : forall created d,
  lockstep d -> lockstep (snd (getSession created d)).
Proof.
  intros c d L. destruct (getSession c d) as [[e|s] d1] eqn:G; simpl.
  - now rewrite (getSession_failure_unchanged _ _ _ _ G).
  - destruct (getSession_success_counts _ _ _ _ G) as [_ [P [A _]]].
    unfold lockstep in *. now rewrite P, A, L.
Qed.

Lemma returnSessionToPool_lockstep : forall s d,
  lockstep d -> lockstep (_returnSessionToPool s d).
Proof.
  intros s d L. unfold lockstep in *.
  destruct (returnSessionToPool_open_permits s d) as [_ [P A]].
  now rewrite P, A, L.
Qed.

Lemma run_ops_lockstep : forall ops d,
  lockstep d -> lockstep (snd (run_ops ops d)).
Proof.
  induction ops as [|o ops IH]; intros d L; simpl; [exact L|].
  assert (L1 : lockstep (snd (run_op o d))).
  { destruct o as [c|s|]; simpl.
    - pose proof (getSession_lockstep c d L) as G.
      destruct (getSession c d) as [[e|s] d']; exact G.
    - now apply returnSessionToPool_lockstep.
    - exact L. }
  destruct (run_op o d) as [h d1]. simpl in L1.
  specialize (IH d1 L1). destruct (run_ops ops d1) as [hs d2]. exact IH.
Qed.

Lemma finally_release_lockstep : forall session st,
  lockstep (fst st) -> lockstep (fst (finally_release session st)).
Proof.
  intros [s|] st L; simpl; [|exact L].
  now apply returnSessionToPool_lockstep.
Qed.

Lemma executeLambda_loop_lockstep : forall script policy session st,
  lockstep (fst st) ->
  lockstep (fst (snd (executeLambda_loop script policy session st))).
Proof.
  induction script as [|a rest IH]; intros policy session st L; simpl;
    [exact L|].
  pose proof (getSession_lockstep (created a) (fst st) L) as G.
  destruct (getSession (created a) (fst st)) as [[err|s] d1]; simpl in G.
  - destruct (isStartTransactionError err || isInvalidSessionException err).
    + apply IH. now apply finally_release_lockstep.
    + simpl. now apply finally_release_lockstep.
  - pose proof (run_ops_lockstep (meanwhile a) d1 G) as M.
    destruct (outcome a policy) as [err|v].
    + destruct (isStartTransactionError err || isInvalidSessionException err).
      * apply IH. simpl. now apply returnSessionToPool_lockstep.
      * simpl. now apply returnSessionToPool_lockstep.
    + simpl. now apply returnSessionToPool_lockstep.
Qed.

(** X3.  In every driver the constructor builds, [_availablePermits] and
    the permits of the semaphore are equal, and they stay equal whatever is
    done to the driver: acquisitions, releases, [close], and whole calls of
    [executeLambda], the ones that release a session twice included. *)
Theorem availablePermits_follow_the_semaphore :
  forall version globalAgent ledgerName opts mct policy d ops script p,
    constructor version globalAgent ledgerName opts mct policy = inr d ->
    lockstep (snd (run_ops ops d)) /\
    lockstep (fst (snd (executeLambda script p (snd (run_ops ops d))))).
Proof.
  intros version ga ledger opts mct policy d ops script p K.
  assert (L : lockstep d).
  { unfold constructor in K.
    destruct (num_lt mct (Num 0)); [discriminate|].
    match type of K with (if ?c then _ else _) = _ => destruct c end;
      [discriminate|].
    injection K as <-. reflexivity. }
  pose proof (run_ops_lockstep ops d L) as L1.
  split; [exact L1|]. unfold executeLambda.
  now apply executeLambda_loop_lockstep.
Qed.

Lemma availablePermits_follow_the_semaphore_witness :
  lockstep (snd (run_ops [OpGetSession (inr session0); OpClose] driver1)) /\
  lockstep
    (fst (snd (executeLambda invalid_then_no_session None
                 (snd (run_ops [OpGetSession (inr session0); OpClose]
                         driver1))))).
Proof.
  apply (availablePermits_follow_the_semaphore "2.0" (mkAgent (Num 1))
           "ledger" plainOptions (Num 1) defaultRetryPolicy driver1
           [OpGetSession (inr session0); OpClose] invalid_then_no_session
           None eq_refl).
Defined.

Lemma getSession_after_release : forall s d created,
  isSessionOpen s = true ->
  _isClosed d = false ->
  num_gt (num_succ (permits (_semaphore d))) (Num 0) = true ->
  getSession created (_returnSessionToPool s d) = (inr s, d).
Proof.
  intros s d c O C P.
  destruct (returnSessionToPool_open_permits s d) as [RC [RP RA]].
  unfold getSession, _throwIfClosed, tryAcquire. rewrite RC, C, RP, P.
  unfold _returnSessionToPool. rewrite O. cbn -[array_pop array_push].
  rewrite array_pop_push, !num_pred_succ.
  destruct d as [? ? ? ? [?] ? ? ? ?]. reflexivity.
Qed.

(** X4.  The pool is a stack: a session released while open is the one the
    next acquisition hands out, and that acquisition puts the driver back
    in the state it had before the release. *)
Theorem released_session_is_acquired_next : forall s d created,
  isSessionOpen s = true ->
  _isClosed d = false ->
  num_gt (num_succ (permits (_semaphore d))) (Num 0) = true ->
  getSession created (_returnSessionToPool s d) = (inr s, d).
Proof. exact getSession_after_release. Qed.

Lemma released_session_is_acquired_next_witness :
  getSession (inl (OtherError "NetworkingError"))
    (_returnSessionToPool session0
       (set_availablePermits (Num 0)
          (set_semaphore (mkSemaphore (Num 0)) driver1)))
  = (inr session0,
     set_availablePermits (Num 0)
       (set_semaphore (mkSemaphore (Num 0)) driver1)).
Proof.
  apply (released_session_is_acquired_next session0
           (set_availablePermits (Num 0)
              (set_semaphore (mkSemaphore (Num 0)) driver1))
           (inl (OtherError "NetworkingError")));
    reflexivity.
Defined.

(** What one operation does to a finite number of permits. *)
Lemma run_op_permits : forall o d p,
  permits (_semaphore d) = Num p -> 0 <= p ->
  let h := fst (run_op o d) in
  let d1 := snd (run_op o d) in
  permits (_semaphore d1)
  = Num (p - (match h with Some _ => 1 | None => 0 end)
           + Z.of_nat (returned [o])) /\
  0 <= p - (match h with Some _ => 1 | None => 0 end)
         + Z.of_nat (returned [o]).
Proof.
  intros [c|s|] d p P Hp;
    cbn [run_op fst snd returned filter List.length Z.of_nat].
  - destruct (getSession c d) as [[e|s] d1] eqn:G; cbn [fst snd].
    + rewrite (getSession_failure_unchanged _ _ _ _ G), P.
      split; [f_equal; lia|lia].
    + destruct (getSession_success_counts _ _ _ _ G) as [Gt [P1 _]].
      rewrite P in Gt, P1. unfold num_gt in Gt. simpl in Gt, P1.
      apply Z.ltb_lt in Gt. rewrite P1. split; [f_equal; lia|lia].
  - destruct (returnSessionToPool_open_permits s d) as [_ [RP _]].
    rewrite RP, P. simpl. split; [f_equal; lia|lia].
  - unfold close. simpl. rewrite P. split; [f_equal; lia|lia].
Qed.

Lemma returned_cons : forall o ops,
  returned (o :: ops) = (returned [o] + returned ops)%nat.
Proof. intros o ops. unfold returned. simpl. now destruct o. Qed.

(** X5.  Starting from [p] permits, however acquisitions, releases and
    [close] follow each other, the semaphore holds [p] minus the sessions
    handed out plus the sessions given back, and never less than none: the
    sessions handed out never exceed the permits there were plus the
    releases made. *)
Theorem sessions_out_never_exceed_permits : forall ops d p,
  permits (_semaphore d) = Num p ->
  0 <= p ->
  permits (_semaphore (snd (run_ops ops d)))
  = Num (p - Z.of_nat (List.length (fst (run_ops ops d)))
           + Z.of_nat (returned ops)) /\
  Z.of_nat (List.length (fst (run_ops ops d)))
  <= p + Z.of_nat (returned ops).
Proof.
  induction ops as [|o ops IH]; intros d p P Hp.
  - simpl. rewrite P. split; [f_equal; lia|lia].
  - destruct (run_op_permits o d p P Hp) as [P1 Hp1].
    rewrite returned_cons. simpl.
    destruct (run_op o d) as [h d1]. simpl in P1, Hp1.
    destruct (IH d1 _ P1 Hp1) as [P2 B].
    destruct (run_ops ops d1) as [hs d2]. simpl in *.
    rewrite P2. destruct h as [s|]; simpl List.length;
      split; try (f_equal; lia); lia.
Qed.

Lemma sessions_out_never_exceed_permits_witness :
  permits (_semaphore
    (snd (run_ops [OpGetSession (inr session0); OpGetSession (inr session1);
                   OpReturnSession session0; OpGetSession (inr session1)]
            driver1)))
  = Num (1 - Z.of_nat (List.length
             (fst (run_ops [OpGetSession (inr session0);
                            OpGetSession (inr session1);
                            OpReturnSession session0;
                            OpGetSession (inr session1)] driver1)))
           + Z.of_nat (returned [OpGetSession (inr session0);
                                 OpGetSession (inr session1);
                                 OpReturnSession session0;
                                 OpGetSession (inr session1)])) /\
  Z.of_nat (List.length
    (fst (run_ops [OpGetSession (inr session0); OpGetSession (inr session1);
                   OpReturnSession session0; OpGetSession (inr session1)]
            driver1)))
  <= 1 + Z.of_nat (returned [OpGetSession (inr session0);
                             OpGetSession (inr session1);
                             OpReturnSession session0;
                             OpGetSession (inr session1)]).
Proof.
  apply (sessions_out_never_exceed_permits
           [OpGetSession (inr session0); OpGetSession (inr session1);
            OpReturnSession session0; OpGetSession (inr session1)]
           driver1 1); [reflexivity|lia].
Defined.

(** X6.  With as many permits as there are callers before it, an open
    driver serves each of them in turn, whatever its pool holds, and the
    next caller gets [SessionPoolEmptyError] at once, with nothing changed
    by the attempt. *)
Theorem pool_is_exhausted_after_capacity_acquisitions :
  forall sessions d created,
    _isClosed d = false ->
    permits (_semaphore d) = Num (Z.of_nat (List.length sessions)) ->
    let d' := snd (run_ops (acquisitions sessions) d) in
    List.length (fst (run_ops (acquisitions sessions) d))
    = List.length sessions /\
    permits (_semaphore d') = Num 0 /\
    getSession created d'
    = (inl (SessionPoolEmptyError (_timeoutMillis d)), d').
Proof.
  induction sessions as [|s sessions IH]; intros d c C P.
  - simpl in *. split; [reflexivity|]. split; [exact P|].
    apply getSession_no_permit; [exact C|]. now rewrite P.
  - assert (Gt : num_gt (permits (_semaphore d)) (Num 0) = true).
    { rewrite P. unfold num_gt, num_lt. apply Z.ltb_lt.
      change (List.length (s :: sessions)) with (S (List.length sessions)).
      lia. }
    destruct (getSession_succeeds s d C Gt) as [h [d1 [G [C1 [P1 _]]]]].
    assert (P1' : permits (_semaphore d1)
                  = Num (Z.of_nat (List.length sessions))).
    { change (List.length (s :: sessions)) with (S (List.length sessions))
        in P.
      rewrite Nat2Z.inj_succ in P. rewrite P1, P. unfold num_pred.
      f_equal. lia. }
    destruct (IH d1 c C1 P1') as [L [Pz E]].
    assert (T : _timeoutMillis d1 = _timeoutMillis d).
    { pose proof (getSession_timeoutMillis (inr s) d) as H.
      now rewrite G in H. }
    simpl. rewrite G. simpl.
    destruct (run_ops (acquisitions sessions) d1) as [hs d2].
    simpl in *. rewrite L, <- T. auto.
Qed.

Lemma pool_is_exhausted_after_capacity_acquisitions_witness :
  List.length (fst (run_ops (acquisitions [session0]) driver1)) = 1%nat /\
  permits (_semaphore (snd (run_ops (acquisitions [session0]) driver1)))
  = Num 0 /\
  getSession (inr session1) (snd (run_ops (acquisitions [session0]) driver1))
  = (inl (SessionPoolEmptyError None),
     snd (run_ops (acquisitions [session0]) driver1)).
Proof.
  apply (pool_is_exhausted_after_capacity_acquisitions [session0] driver1
           (inr session1)); reflexivity.
Defined.

Lemma run_ops_unbounded_permits : forall ops d,
  permits (_semaphore d) = Infinity ->
  permits (_semaphore (snd (run_ops ops d))) = Infinity.
Proof.
  induction ops as [|o ops IH]; intros d P; simpl; [exact P|].
  assert (P1 : permits (_semaphore (snd (run_op o d))) = Infinity).
  { destruct o as [c|s|]; cbn [run_op fst snd].
    - destruct (getSession c d) as [[e|s] d1] eqn:G; cbn [fst snd].
      + now rewrite (getSession_failure_unchanged _ _ _ _ G).
      + destruct (getSession_success_counts _ _ _ _ G) as [_ [P1 _]].
        now rewrite P1, P.
    - destruct (returnSessionToPool_open_permits s d) as [_ [RP _]].
      now rewrite RP, P.
    - exact P. }
  destruct (run_op o d) as [h d1]. simpl in P1.
  specialize (IH d1 P1). destruct (run_ops ops d1) as [hs d2]. exact IH.
Qed.

(** X7.  A driver built with the default limit (0) under an agent whose
    [maxSockets] is [Infinity], as that of Node's [globalAgent] is unless
    changed, has a pool without bound: whatever was done to it, no
    acquisition ends in [SessionPoolEmptyError] (unless the creation of a
    session itself were to fail with that very error). *)
Theorem default_driver_is_never_exhausted :
  forall version globalAgent ledgerName opts policy d ops created,
    clientMaxSockets opts globalAgent = Infinity ->
    constructor version globalAgent ledgerName opts (Num 0) policy = inr d ->
    poolExhausted created = false ->
    poolExhausted (fst (getSession created (snd (run_ops ops d)))) = false.
Proof.
  intros version ga ledger opts policy d ops c M K Hc.
  assert (P : permits (_semaphore d) = Infinity).
  { unfold constructor in K.
    change (clientMaxSockets
              (mkClientConfiguration (httpOptions opts)
                 (Some ("QLDB Driver for Node.js v" ++ version)%string)
                 (Some 0)) ga)
      with (clientMaxSockets opts ga) in K.
    rewrite M in K. simpl in K. injection K as <-. reflexivity. }
  pose proof (run_ops_unbounded_permits ops d P) as P'.
  set (d' := snd (run_ops ops d)) in *.
  unfold getSession, _createSession, _throwIfClosed, tryAcquire.
  destruct (_isClosed d') eqn:C; [reflexivity|].
  rewrite P'. simpl.
  destruct (array_pop (_sessionPool d')) as [[s|] pool]; simpl;
    [reflexivity|].
  rewrite C. destruct c as [e|s]; [exact Hc|reflexivity].
Qed.

Lemma default_driver_is_never_exhausted_witness :
  poolExhausted
    (fst (getSession (inr session1)
            (snd (run_ops (acquisitions [session0; session1; session0])
                    (mkDriver Infinity None Infinity []
                       (mkSemaphore Infinity)
                       (mkClientConfiguration None
                          (Some "QLDB Driver for Node.js v2.0"%string)
                          (Some 0))
                       "ledger" false defaultRetryPolicy)))))
  = false.
Proof.
  apply (default_driver_is_never_exhausted "2.0" (mkAgent Infinity) "ledger"
           plainOptions defaultRetryPolicy); reflexivity.
Defined.

(** X8.  A call that cannot get its first session changes nothing: when the
    first [getSession] fails (driver closed, no permit, or a session that
    cannot be created) with an error outside the session-validity class,
    [executeLambda], and [getTableNames] with it, end with that very error,
    the driver is exactly as before and no session was borrowed or
    released; when the error is of the session-validity class, the loop
    goes round again from that same untouched state. *)
Theorem failed_first_acquisition_changes_nothing :
  forall a script policy d e,
    fst (getSession (created a) d) = inl e ->
    (isStartTransactionError e || isInvalidSessionException e = false ->
     executeLambda (a :: script) policy d = (Some (inl e), (d, [])) /\
     getTableNames (a :: script) d = (Some (inl e), (d, []))) /\
    (isStartTransactionError e || isInvalidSessionException e = true ->
     executeLambda (a :: script) policy d = executeLambda script policy d).
Proof.
  intros a script policy d e G.
  destruct (getSession (created a) d) as [r d1] eqn:G'. simpl in G. subst r.
  pose proof (getSession_failure_unchanged _ _ _ _ G') as ->.
  split; intros A.
  - unfold getTableNames, executeLambda. simpl. rewrite G', A. auto.
  - unfold executeLambda. simpl. rewrite G', A. reflexivity.
Qed.

Lemma failed_first_acquisition_changes_nothing_witness :
  executeLambda
    [mkAttempt (inr session1) [] (fun _ => inr "unused"%string) true]
    None
    (snd (run_ops (acquisitions [session0]) driver1))
  = (Some (inl (SessionPoolEmptyError None)),
     (snd (run_ops (acquisitions [session0]) driver1), [])).
Proof.
  apply (proj1 (failed_first_acquisition_changes_nothing
                  (mkAttempt (inr session1) []
                     (fun _ => inr "unused"%string) true)
                  [] None
                  (snd (run_ops (acquisitions [session0]) driver1))
                  (SessionPoolEmptyError None) eq_refl) eq_refl).
Defined.

(** X9.  A session that is still open when its call ends is kept for the
    next call: after a call that ran undisturbed on an open driver with a
    permit, the session it used lies on top of the pool, and the next
    acquisition hands out that session without creating one, whatever the
    creation would have answered. *)
Theorem open_session_is_reused_by_the_next_call :
  forall a policy d next,
    _isClosed d = false ->
    num_gt (permits (_semaphore d)) (Num 0) = true ->
    (exists c, created a = inr c) ->
    meanwhile a = [] ->
    staysOpen a = true ->
    (forall e, outcome a policy = inl e ->
       isStartTransactionError e || isInvalidSessionException e = false) ->
    exists s d',
      executeLambda [a] (Some policy) d
      = (Some (outcome a policy),
         (d', [Borrowed s; Released (afterRun true s)])) /\
      fst (getSession next d') = inr (afterRun true s).
Proof.
  intros a policy d c' C P [c Hc] Hm Ho Hf.
  destruct (getSession_succeeds c d C P) as [s [d1 [G [C1 [P1 A1]]]]].
  exists s, (_returnSessionToPool (afterRun true s) d1).
  assert (Next : fst (getSession c'
                        (_returnSessionToPool (afterRun true s) d1))
                 = inr (afterRun true s)).
  { rewrite getSession_after_release; [reflexivity|reflexivity|exact C1|].
    now rewrite P1, num_succ_pred. }
  split; [|exact Next].
  unfold executeLambda. simpl. rewrite Hc, G, Hm, Ho. simpl.
  destruct (outcome a policy) as [e|v] eqn:O; [|reflexivity].
  rewrite (Hf e eq_refl). reflexivity.
Qed.

Lemma open_session_is_reused_by_the_next_call_witness :
  exists s d',
    executeLambda
      [mkAttempt (inr session0) [] (fun _ => inr "committed"%string) true]
      (Some defaultRetryPolicy) driver1
    = (Some (inr "committed"%string),
       (d', [Borrowed s; Released (afterRun true s)])) /\
    fst (getSession (inl (OtherError "NetworkingError")) d')
    = inr (afterRun true s).
Proof.
  apply (open_session_is_reused_by_the_next_call
           (mkAttempt (inr session0) [] (fun _ => inr "committed"%string)
              true)
           defaultRetryPolicy driver1 (inl (OtherError "NetworkingError")));
    try reflexivity.
  - exists session0. reflexivity.
  - discriminate.
Defined.


(* --------------------------------------------------------------------- *)
(** *** What the pool holds *)

(** While the driver is open its pool holds only sessions that were open
    when they were released. *)
Lemma run_op_pool_open : forall o d,
  _isClosed d = true \/
  Forall (fun s => isSessionOpen s = true) (_sessionPool d) ->
  _isClosed (snd (run_op o d)) = true \/
  Forall (fun s => isSessionOpen s = true) (_sessionPool (snd (run_op o d))).
Proof.
  intros o d [C|F]; [left; now apply run_op_isClosed|].
  destruct o as [c|s|]; cbn [run_op].
  - right. destruct (getSession c d) as [r d'] eqn:G.
    destruct (getSession_origin _ _ _ _ G) as [Sub _].
    assert (F' : Forall (fun s => isSessionOpen s = true) (_sessionPool d')).
    { apply Forall_forall. intros y Hy.
      exact (proj1 (Forall_forall _ _) F y (Sub y Hy)). }
    destruct r; exact F'.
  - right. unfold _returnSessionToPool.
    destruct (isSessionOpen s) eqn:O; simpl; [|exact F].
    unfold array_push. apply Forall_app. split; [exact F|].
    constructor; [exact O|constructor].
  - left. reflexivity.
Qed.

Lemma run_ops_pool_open : forall ops d,
  _isClosed d = true \/
  Forall (fun s => isSessionOpen s = true) (_sessionPool d) ->
  _isClosed (snd (run_ops ops d)) = true \/
  Forall (fun s => isSessionOpen s = true) (_sessionPool (snd (run_ops ops d))).
Proof.
  induction ops as [|o ops IH]; intros d H; simpl; [exact H|].
  pose proof (run_op_pool_open o d H) as H1.
  destruct (run_op o d) as [h d1]. simpl in H1.
  specialize (IH d1 H1). destruct (run_ops ops d1) as [hs d2]. exact IH.
Qed.

(** X15.  Whatever was done to a driver since it was built, a session that
    [getSession] hands out is either the one just created for this call or
    one that was open when it was released: a session released closed is
    never handed out again. *)
Theorem session_handed_out_is_new_or_was_released_open :
  forall version globalAgent ledgerName opts mct policy d ops created s d',
    constructor version globalAgent ledgerName opts mct policy = inr d ->
    getSession created (snd (run_ops ops d)) = (inr s, d') ->
    created = inr s \/
    (In s (_sessionPool (snd (run_ops ops d))) /\ isSessionOpen s = true).
Proof.
  intros version ga ledger opts mct policy d ops c s d' K G.
  assert (P0 : _sessionPool d = []).
  { unfold constructor in K.
    destruct (num_lt mct (Num 0)); [discriminate|].
    destruct (num_gt _ _); [discriminate|]. now injection K as <-. }
  destruct (getSession_origin _ _ _ _ G) as [_ Or].
  destruct (Or s eq_refl) as [Hin|Hc]; [right|now left].
  split; [exact Hin|].
  destruct (run_ops_pool_open ops d) as [C|F].
  - right. rewrite P0. constructor.
  - rewrite (getSession_closed _ _ C) in G. discriminate.
  - exact (proj1 (Forall_forall _ _) F s Hin).
Qed.

Lemma session_handed_out_is_new_or_was_released_open_witness :
  inr session1 = @inr Error QldbSession session0 \/
  (In session0
     (_sessionPool
        (snd (run_ops [OpGetSession (inr session0); OpReturnSession session0]
                driver1))) /\
   isSessionOpen session0 = true).
Proof.
  apply (session_handed_out_is_new_or_was_released_open "2.0"
           (mkAgent (Num 1)) "ledger" plainOptions (Num 1)
           defaultRetryPolicy driver1
           [OpGetSession (inr session0); OpReturnSession session0]
           (inr session1) session0
           (snd (run_ops [OpGetSession (inr session0);
                          OpReturnSession session0;
                          OpGetSession (inr session1)] driver1)));
    reflexivity.
Defined.

(** On a closed driver nothing is handed out and nothing leaves the pool:
    as long as [close] is not called again, releases only add to it. *)
Lemma closed_pool_grows : forall ops d,
  _isClosed d = true ->
  ~ In OpClose ops ->
  fst (run_ops ops d) = [] /\
  exists more, _sessionPool (snd (run_ops ops d)) = _sessionPool d ++ more.
Proof.
  induction ops as [|o ops IH]; intros d C N.
  - simpl. split; [reflexivity|]. exists []. now rewrite app_nil_r.
  - assert (N' : ~ In OpClose ops) by (intros X; apply N; now right).
    pose proof (run_op_isClosed o d C) as C1.
    assert (S1 : fst (run_op o d) = None /\
                 exists more,
                   _sessionPool (snd (run_op o d)) = _sessionPool d ++ more).
    { destruct o as [c|s|]; cbn [run_op].
      - rewrite (getSession_closed _ _ C). simpl. split; [reflexivity|].
        exists []. now rewrite app_nil_r.
      - split; [reflexivity|]. unfold _returnSessionToPool.
        destruct (isSessionOpen s); simpl.
        + now exists [s].
        + exists []. now rewrite app_nil_r.
      - exfalso. apply N. now left. }
    simpl. destruct (run_op o d) as [h d1]. simpl in C1, S1.
    destruct S1 as [-> [m1 P1]].
    destruct (IH d1 C1 N') as [H [m2 P2]].
    destruct (run_ops ops d1) as [hs d2]. simpl in *.
    split; [exact H|]. exists (m1 ++ m2). now rewrite P2, P1, app_assoc.
Qed.

(** X16.  [close] ends the idle sessions only.  A session that is out when
    the driver is closed and is released afterwards while open is put on
    the pool as it is, without [endSession]; as long as [close] is not
    called again it stays there, and no call can get it. *)
Theorem session_released_after_close_is_kept_unended :
  forall d s ops,
    isSessionOpen s = true ->
    ~ In OpClose ops ->
    fst (run_ops (OpReturnSession s :: ops) (close d)) = [] /\
    In s (_sessionPool (snd (run_ops (OpReturnSession s :: ops) (close d)))) /\
    forall created,
      fst (getSession created
             (snd (run_ops (OpReturnSession s :: ops) (close d))))
      = inl DriverClosedError.
Proof.
  intros d s ops O N.
  assert (C1 : _isClosed (_returnSessionToPool s (close d)) = true).
  { exact (run_op_isClosed (OpReturnSession s) (close d) eq_refl). }
  destruct (closed_pool_grows ops (_returnSessionToPool s (close d)) C1 N)
    as [H [more P]].
  pose proof (run_ops_isClosed ops (_returnSessionToPool s (close d)) C1)
    as C2.
  change (run_ops (OpReturnSession s :: ops) (close d))
    with (let (hs, d2) := run_ops ops (_returnSessionToPool s (close d)) in
          (hs, d2)).
  destruct (run_ops ops (_returnSessionToPool s (close d))) as [hs d2].
  cbn [fst snd] in *.
  split; [exact H|]. split.
  - rewrite P. apply in_or_app. left.
    unfold _returnSessionToPool. rewrite O. simpl. unfold array_push.
    apply in_or_app. right. now left.
  - intros c. now rewrite (getSession_closed _ _ C2).
Qed.

Lemma session_released_after_close_is_kept_unended_witness :
  fst (run_ops [OpReturnSession session0; OpGetSession (inr session1)]
         (close driver1)) = [] /\
  _sessionPool
    (snd (run_ops [OpReturnSession session0; OpGetSession (inr session1)]
            (close driver1)))
  = [session0] /\
  transportEnded session0 = false.
Proof.
  destruct (session_released_after_close_is_kept_unended driver1 session0
              [OpGetSession (inr session1)]) as [H _].
  - reflexivity.
  - intros [X|[]]. discriminate.
  - split; [exact H|]. split; reflexivity.
Defined.

(* ===================================================================== *)
(** ** The stream's theorems at concrete inputs *)
(* ===================================================================== *)

(** The two-page result, read by a consumer that accepts every other push:
    [v1], [v2], [v3] and the end, with one call for [t2]. *)
Lemma stream_emits_every_value_once_in_order_witness :
  exists s,
    consume string (fun b => b) Nat.even 6 2 [fetchedSecondPage]
      (newResultStream string "txn" executedTwoPages)
    = Some s /\
    pushed string s = [Some "v1"; Some "v2"; Some "v3"; None]%string /\
    fetchCalls string s = [("txn", "t2")]%string /\
    readableEnded string s = true.
Proof.
  apply (stream_emits_every_value_once_in_order string (fun b => b) Nat.even
           "txn" executedTwoPages [fetchedSecondPage] 6 2).
  - repeat constructor.
  - lia.
  - simpl. lia.
Defined.

(** The two-page result read to its end: 3 + 4 read IOs, and 7 ms reported
    by the second page only. *)
Lemma stream_totals_are_sums_witness :
  exists s,
    consume string (fun b => b) Nat.even 6 2 [fetchedSecondPage]
      (newResultStream string "txn" executedTwoPages)
    = Some s /\
    getConsumedIOs string s = Some (mkIOUsageImpl 7) /\
    getTimingInformation string s = Some (mkTimingInformationImpl 7).
Proof.
  destruct (stream_totals_are_sums string (fun b => b) Nat.even
              "txn" executedTwoPages [fetchedSecondPage] 6 2)
    as [s [E [_ [Hio [Hti _]]]]].
  - repeat constructor.
  - reflexivity.
  - lia.
  - simpl. lia.
  - exists s. split; [exact E|]. split; [exact Hio|exact Hti].
Defined.

(** The two-page result against a consumer that refuses every push: after
    three read requests and the second page, one call at most is out. *)
Lemma stream_single_flight_and_backpressure_witness :
  exists s,
    run string (fun b => b) (fun _ => false) 2
      [ReadRequest; ReadRequest; ReadRequest; ReadRequest;
       PageFetched fetchedSecondPage]
      (newResultStream string "txn" executedTwoPages)
    = Some s /\
    (List.length (inFlight string s) <= 1)%nat.
Proof.
  destruct (stream_single_flight_and_backpressure string (fun b => b)
              (fun _ => false) "txn" executedTwoPages 2
              [ReadRequest; ReadRequest; ReadRequest; ReadRequest;
               PageFetched fetchedSecondPage])
    as [s [E [H _]]].
  - lia.
  - exists s. split; [exact E|exact H].
Defined.

(** The two-page result against a consumer that accepts every push: the
    call for [t2] is out after the first read request; when it fails, the
    stream is destroyed and stays as it is. *)
Lemma stream_stops_after_fetch_failure_witness :
  exists s,
    run string (fun b => b) (fun _ => true) 2 [ReadRequest]
      (newResultStream string "txn" executedTwoPages)
    = Some s /\
    inFlight string s = [("txn", "t2")]%string /\
    exists s',
      step string (fun b => b) (fun _ => true) 2
        (FetchFailed (OtherError "NetworkingError")) s = Some s' /\
      destroyed string s' = Some (OtherError "NetworkingError") /\
      run string (fun b => b) (fun _ => true) 2
        [ReadRequest; PageFetched fetchedSecondPage; ReadRequest] s'
      = Some s'.
Proof.
  destruct (stream_stops_after_fetch_failure string (fun b => b)
              (fun _ => true) "txn" executedTwoPages 2 [ReadRequest]
              (OtherError "NetworkingError")
              [ReadRequest; PageFetched fetchedSecondPage; ReadRequest])
    as [s [E H]].
  - lia.
  - exists s. split; [exact E|].
    assert (F : inFlight string s = [("txn", "t2")]%string).
    { simpl in E. injection E as <-. reflexivity. }
    split; [exact F|].
    destruct H as [s' [E' [D [_ [_ [_ [_ R]]]]]]].
    + rewrite F. discriminate.
    + exists s'. split; [exact E'|]. split; [exact D|exact R].
Defined.


(** The two-page result against a consumer that accepts every other push,
    with a page answer nobody asked for, a read request during the fetch
    and one after the end. *)
Lemma stream_pushes_a_prefix_in_order_witness :
  exists s n,
    run string (fun b => b) Nat.even 2
      [PageFetched fetchedSecondPage; ReadRequest; ReadRequest; ReadRequest;
       PageFetched fetchedSecondPage; ReadRequest]
      (newResultStream string "txn" executedTwoPages)
    = Some s /\
    pushed string s
    = loaded string (fun b => b)
        (firstn n (valuesOf [pageOne; pageTwo]))
      ++ endSignal string (readableEnded string s) /\
    (readableEnded string s = true ->
     n = 3%nat /\ hasToken pageTwo = false).
Proof.
  apply (stream_pushes_a_prefix_in_order string (fun b => b) Nat.even
           "txn" executedTwoPages 2
           [PageFetched fetchedSecondPage; ReadRequest; ReadRequest;
            ReadRequest; PageFetched fetchedSecondPage; ReadRequest]).
  lia.
Defined.

(** The same result against a consumer that accepts every push, when the
    call for the second page fails: one call was made, no page was
    delivered. *)
Lemma stream_is_never_more_than_one_page_ahead_witness :
  exists s,
    run string (fun b => b) (fun _ => true) 2
      [ReadRequest; FetchFailed (OtherError "NetworkingError"); ReadRequest]
      (newResultStream string "txn" executedTwoPages)
    = Some s /\
    List.length (fetchCalls string s)
    = (0 + List.length (inFlight string s)
       + (if isDestroyed string s then 1 else 0))%nat /\
    (List.length (fetchCalls string s) <= 0 + 1)%nat.
Proof.
  apply (stream_is_never_more_than_one_page_ahead string (fun b => b)
           (fun _ => true) "txn" executedTwoPages 2
           [ReadRequest; FetchFailed (OtherError "NetworkingError");
            ReadRequest]).
  lia.
Defined.

(** The two-page result read to its end by a consumer that accepts every
    push; a read request and a page answer after the end change nothing. *)
Lemma stream_is_at_rest_after_the_end_witness :
  exists s,
    run string (fun b => b) (fun _ => true) 2
      [ReadRequest; PageFetched fetchedSecondPage]
      (newResultStream string "txn" executedTwoPages)
    = Some s /\
    readableEnded string s = true /\
    inFlight string s = [] /\ _isPushingData string s = false /\
    run string (fun b => b) (fun _ => true) 2
      [ReadRequest; PageFetched fetchedSecondPage] s
    = Some s.
Proof.
  destruct (stream_is_at_rest_after_the_end string (fun b => b)
              (fun _ => true) "txn" executedTwoPages 2
              [ReadRequest; PageFetched fetchedSecondPage]
              [ReadRequest; PageFetched fetchedSecondPage])
    as [s [E H]].
  - lia.
  - exists s. split; [exact E|].
    assert (En : readableEnded string s = true).
    { simpl in E. injection E as <-. reflexivity. }
    split; [exact En|]. exact (H En).
Defined.

(** The two-page result and a consumer that accepts every push: one read
    request, and the answer to the call it leads to. *)
Lemma one_read_request_drains_an_accepting_stream_witness :
  exists s,
    run string (fun b => b) (fun _ => true) 2
      [ReadRequest; PageFetched fetchedSecondPage]
      (newResultStream string "txn" executedTwoPages)
    = Some s /\
    pushed string s = [Some "v1"; Some "v2"; Some "v3"; None]%string /\
    fetchCalls string s = [("txn", "t2")]%string /\
    inFlight string s = [] /\ _isPushingData string s = false.
Proof.
  apply (one_read_request_drains_an_accepting_stream string (fun b => b)
           (fun _ => true) "txn" executedTwoPages [fetchedSecondPage] 2).
  - reflexivity.
  - repeat constructor.
  - reflexivity.
  - lia.
Defined.
